(** * FireWall-gAmA: the inactivity monitor ([src/core/inactivity_monitor.py])

    A shallow embedding of the idle-based access control loop: the packet
    handler, ARP discovery, the seeding and evaluation loops of
    [idle_checker], and the host-firewall enforcement of [block_ip].

    Modelling conventions.
    - A [datetime] is an integer number of microseconds ([Z]); the test
      [(now - last).total_seconds() >= IDLE_TIMEOUT] compares a correctly
      rounded quotient by 10^6 with an integer number of seconds, which
      (for thresholds below 2^33 seconds, where a double resolves a
      microsecond) is the integer test [IDLE_TIMEOUT * 10^6 <= now - last].
    - The three threads are interleaved at the grain of one frame and one
      evaluation cycle.
    - [last_activity] is a Python dict: an association list in insertion
      order (assignment to a present key keeps its position).
    - [blocked_ips] is a Python set of strings: a [gset string].
    - External calls (subprocess, plyer, playsound) take their outcome from
      an oracle record [Env]; every call leaves an event in a trace.
    - An uncaught Python exception is the result [Raise e]; it aborts the
      rest of the computation, as in the source.
    - Text is ASCII: whitespace and digits are the ASCII ones. *)

From stdpp Require Import base strings gmap list.
From Stdlib Require Import Ascii ZArith Lia.
From Stdlib Require String.

Open Scope Z_scope.

(** ** Python string operations used by [discover_devices] *)

Module PyStr.

(** Whitespace of [str.split()] and [str.strip()]: TAB..CR, FS..US, space. *)
Definition is_space (c : ascii) : bool :=
  let n := nat_of_ascii c in
  ((9 <=? n) && (n <=? 13) || (28 <=? n) && (n <=? 32))%nat.

(** Line boundaries of [str.splitlines()]: LF, VT, FF, CR, FS, GS, RS. *)
Definition is_linebreak (c : ascii) : bool :=
  let n := nat_of_ascii c in
  ((10 <=? n) && (n <=? 13) || (28 <=? n) && (n <=? 30))%nat.

Definition is_digit (c : ascii) : bool :=
  let n := nat_of_ascii c in ((48 <=? n) && (n <=? 57))%nat.

Definition is_CR (c : ascii) : bool := (nat_of_ascii c =? 13)%nat.
Definition is_LF (c : ascii) : bool := (nat_of_ascii c =? 10)%nat.
Definition is_dot (c : ascii) : bool := (nat_of_ascii c =? 46)%nat.

Definition of_rev (acc : list ascii) : string :=
  String.string_of_list_ascii (rev acc).

(** [splitlines_aux acc skip_lf s]: [acc] is the current line, reversed;
    [skip_lf] says the previous character was a CR, whose following LF
    belongs to the same boundary. *)
Fixpoint splitlines_aux (acc : list ascii) (skip_lf : bool) (s : string)
  : list string :=
  match s with
  | EmptyString => match acc with [] => [] | _ => [of_rev acc] end
  | String c s' =>
      if skip_lf && is_LF c then splitlines_aux acc false s'
      else if is_linebreak c then of_rev acc :: splitlines_aux [] (is_CR c) s'
      else splitlines_aux (c :: acc) false s'
  end.

Definition splitlines (s : string) : list string := splitlines_aux [] false s.

(** [str.split()] with no argument: the maximal runs of non-whitespace. *)
Fixpoint split_aux (acc : list ascii) (s : string) : list string :=
  match s with
  | EmptyString => match acc with [] => [] | _ => [of_rev acc] end
  | String c s' =>
      if is_space c
      then match acc with
           | [] => split_aux [] s'
           | _ => of_rev acc :: split_aux [] s'
           end
      else split_aux (c :: acc) s'
  end.

Definition split (s : string) : list string := split_aux [] s.

Fixpoint lstrip (s : string) : string :=
  match s with
  | String c s' => if is_space c then lstrip s' else s
  | EmptyString => EmptyString
  end.

Fixpoint drop_spaces (l : list ascii) : list ascii :=
  match l with
  | c :: l' => if is_space c then drop_spaces l' else l
  | [] => []
  end.

Definition rstrip (s : string) : string :=
  of_rev (drop_spaces (rev (String.list_ascii_of_string s))).

Definition strip (s : string) : string := rstrip (lstrip s).

Fixpoint startswith (s p : string) : bool :=
  match p, s with
  | EmptyString, _ => true
  | String a p', String b s' => Ascii.eqb a b && startswith s' p'
  | String _ _, EmptyString => false
  end.

(** The regular expression [\d+\.\d+\.\d+\.\d+] applied with [re.match]:
    anchored at the start, free at the end.  Digits and the dot are
    disjoint, so the greedy run of digits is the only split that can
    match. *)
Fixpoint skip_digits (s : string) : string :=
  match s with
  | String c s' => if is_digit c then skip_digits s' else s
  | EmptyString => EmptyString
  end.

(** [\d+]: at least one digit, then all of them. *)
Definition digits1 (s : string) : option string :=
  match s with
  | String c s' => if is_digit c then Some (skip_digits s') else None
  | EmptyString => None
  end.

(** [\d+\.] *)
Definition digits1_dot (s : string) : option string :=
  match digits1 s with
  | Some (String c s') => if is_dot c then Some s' else None
  | _ => None
  end.

Definition re_match_dotted_quad (s : string) : bool :=
  match digits1_dot s with
  | Some s1 =>
      match digits1_dot s1 with
      | Some s2 =>
          match digits1_dot s2 with
          | Some s3 => match digits1 s3 with Some _ => true | None => false end
          | None => false
          end
      | None => false
      end
  | None => false
  end.

End PyStr.

(** ** The monitor *)

Module Monitor.

(** *** Configuration and globals *)

(** The module constants [IDLE_TIMEOUT] (seconds) and [AGGRESSIVE_MODE]. *)
Record Config := {
  IDLE_TIMEOUT : Z;
  AGGRESSIVE_MODE : bool
}.

(** The values written in the source. *)
Definition source_config : Config :=
  {| IDLE_TIMEOUT := 10; AGGRESSIVE_MODE := true |}.

Definition BROADCAST : string := "255.255.255.255".

(** The globals [last_activity] (dict, insertion ordered) and
    [blocked_ips] (set). *)
Record State := {
  last_activity : list (string * Z);
  blocked_ips : gset string
}.

Definition initial_state : State :=
  {| last_activity := []; blocked_ips := ∅ |}.

(** *** Python dict operations on [last_activity] *)

Fixpoint dict_get (k : string) (d : list (string * Z)) : option Z :=
  match d with
  | [] => None
  | (k', v) :: d' => if decide (k' = k) then Some v else dict_get k d'
  end.

(** [k in d] *)
Definition dict_mem (k : string) (d : list (string * Z)) : bool :=
  match dict_get k d with Some _ => true | None => false end.

(** [d[k] = v]: a present key keeps its place, a new key goes last. *)
Fixpoint dict_set (k : string) (v : Z) (d : list (string * Z))
  : list (string * Z) :=
  match d with
  | [] => [(k, v)]
  | (k', v') :: d' =>
      if decide (k' = k) then (k, v) :: d' else (k', v') :: dict_set k v d'
  end.

(** [s.add(x)] on a set kept as a duplicate-free list (first insertion
    first).  Python leaves the iteration order of a set unspecified; the
    loops below are stated for every list. *)
Fixpoint set_add (x : string) (s : list string) : list string :=
  match s with
  | [] => [x]
  | y :: s' => if decide (y = x) then s else y :: set_add x s'
  end.

(** *** The outside world *)

(** [platform.system().lower()]: ["windows"], ["linux"], anything else. *)
Inductive Platform := Windows | Linux | OtherOS.

Inductive Result (A : Type) :=
  | Ok (a : A)
  | Raise (e : string).
Arguments Ok {A} a.
Arguments Raise {A} e.

(** What the external calls of one cycle answer.  [Raise e] is an
    exception whose text is [e]. *)
Record Env := {
  os_type : Platform;
  (** [subprocess.check_output(cmd, text=True)] *)
  check_output : list string -> Result string;
  (** [subprocess.run(cmd, check=True)] *)
  run : list string -> Result unit;
  (** [notification.notify(title=..., message=..., timeout=5)], the message
      being ["Device {ip} idle for >={IDLE_TIMEOUT}s"] *)
  notification_notify : string -> string -> Z -> Result unit;
  (** [os.path.exists(SOUND_FILE)] *)
  sound_file_exists : bool;
  (** [playsound(SOUND_FILE)] *)
  playsound : Result unit
}.

(** The messages handed to [log], by format string. *)
Inductive LogMsg :=
  | MsgDiscovered (ip : string)        (* Discovered device {ip}, seeding timer *)
  | MsgIdle (ip : string) (timeout : Z) (* Idle detected: {ip} (idle >= {IDLE_TIMEOUT}s) *)
  | MsgBlocked (ip : string)           (* Blocked IP {ip} at host firewall *)
  | MsgBlockFailed (ip e : string)     (* [ERROR] Failed to block {ip}: {e} *)
  | MsgArpFailed (e : string).         (* [ERROR] ARP discovery failed: {e} *)

Inductive Event :=
  | ELog (m : LogMsg)                          (* a line of the audit log *)
  | ENotify (title ip : string) (timeout : Z)  (* desktop notification requested *)
  | EPlaySound                                 (* playsound called *)
  | EPrintSoundError (e : string)              (* print of "[Sound Error] {e}" *)
  | ERun (cmd : list string)                   (* subprocess.run called *)
  | ECheckOutput (cmd : list string)           (* subprocess.check_output called *)
  | EBlockIp (ip : string).                    (* entry of block_ip(ip) *)

(** *** State, trace and exceptions *)

Definition M (A : Type) : Type := State -> State * list Event * Result A.

Definition ret {A} (a : A) : M A := fun s => (s, [], Ok a).

Definition bind {A B} (m : M A) (f : A -> M B) : M B :=
  fun s =>
    match m s with
    | (s1, t1, Ok a) =>
        match f a s1 with (s2, t2, r) => (s2, t1 ++ t2, r) end
    | (s1, t1, Raise e) => (s1, t1, Raise e)
    end.

#[global] Instance M_ret : MRet M := @ret.
#[global] Instance M_bind : MBind M := fun A B f m => bind m f.

(** [try: m  except Exception as e: h e] *)
Definition try_catch {A} (m : M A) (h : string -> M A) : M A :=
  fun s =>
    match m s with
    | (s1, t1, Ok a) => (s1, t1, Ok a)
    | (s1, t1, Raise e) =>
        match h e s1 with (s2, t2, r) => (s2, t1 ++ t2, r) end
    end.

Definition emit (ev : Event) : M unit := fun s => (s, [ev], Ok tt).

(** An external call: the event, then what the world answers. *)
Definition call {A} (ev : Event) (r : Result A) : M A := fun s => (s, [ev], r).

Definition get_last_activity : M (list (string * Z)) :=
  fun s => (s, [], Ok (last_activity s)).

Definition get_blocked_ips : M (gset string) :=
  fun s => (s, [], Ok (blocked_ips s)).

(** [last_activity[k] = v] *)
Definition set_last_activity (k : string) (v : Z) : M unit :=
  fun s =>
    ({| last_activity := dict_set k v (last_activity s);
        blocked_ips := blocked_ips s |}, [], Ok tt).

(** [blocked_ips.add(ip)] *)
Definition blocked_ips_add (ip : string) : M unit :=
  fun s =>
    ({| last_activity := last_activity s;
        blocked_ips := {[ ip ]} ∪ blocked_ips s |}, [], Ok tt).

(** [for x in l: body x] *)
Fixpoint for_each {A} (l : list A) (body : A -> M unit) : M unit :=
  match l with
  | [] => ret tt
  | x :: l' => body x ;; for_each l' body
  end.

(** *** Helpers *)

(** [log(msg)]: one line on the audit log.  The time stamp in front of the
    line is read from the clock by [log] itself and is not part of the
    model; the log sink does not fail. *)
Definition log (m : LogMsg) : M unit := emit (ELog m).

Definition notify (env : Env) (title ip : string) (timeout : Z) : M unit :=
  call (ENotify title ip timeout) (notification_notify env title ip timeout).

Definition play_sound (env : Env) : M unit :=
  if sound_file_exists env
  then try_catch (call EPlaySound (playsound env))
                 (fun e => emit (EPrintSoundError e))
  else ret tt.

Definition run_cmd (env : Env) (cmd : list string) : M unit :=
  call (ERun cmd) (run env cmd).

Definition netsh_rule (dir ip : string) : list string :=
  ["netsh"; "advfirewall"; "firewall"; "add"; "rule";
   "name=Firewall gAmA block " +:+ ip;
   "dir=" +:+ dir; "action=block"; "remoteip=" +:+ ip].

(** The commands of the [try] block of [block_ip], by platform. *)
Definition firewall_commands (env : Env) (ip : string) : M unit :=
  match os_type env with
  | Windows =>
      run_cmd env (netsh_rule "in" ip) ;;
      run_cmd env (netsh_rule "out" ip)
  | Linux =>
      run_cmd env ["iptables"; "-I"; "INPUT"; "-s"; ip; "-j"; "DROP"] ;;
      run_cmd env ["iptables"; "-I"; "OUTPUT"; "-d"; ip; "-j"; "DROP"]
  | OtherOS => ret tt
  end.

(** [block_ip(ip)].  [EBlockIp ip] marks the call. *)
Definition block_ip (env : Env) (ip : string) : M unit :=
  emit (EBlockIp ip) ;;
  try_catch
    (firewall_commands env ip ;; log (MsgBlocked ip))
    (fun e => log (MsgBlockFailed ip e)).

(** *** Packet sniffer *)

(** A captured frame: [Some (src, dst)] when [IP in pkt]. *)
Definition Packet : Type := option (string * string).

Definition packet_handler (now : Z) (pkt : Packet) : M unit :=
  match pkt with
  | Some (src, dst) =>
      for_each [src; dst] (fun addr => set_last_activity addr now)
  | None => ret tt
  end.

(** *** ARP discovery *)

(** The loop over the lines of [arp -a] (Windows).  [ips] is the local
    set; [parts[0]] on an empty list raises [IndexError], which leaves the
    loop with the addresses added so far. *)
Fixpoint parse_arp_windows (lines : list string) (ips : list string)
  : list string * Result unit :=
  match lines with
  | [] => (ips, Ok tt)
  | line :: rest =>
      let line := PyStr.strip line in
      if match line with EmptyString => true | _ => false end
         || PyStr.startswith line "Interface"
         || PyStr.startswith line "Internet"
      then parse_arp_windows rest ips
      else
        match PyStr.split line with
        | [] => (ips, Raise "list index out of range")
        | ip :: _ =>
            if PyStr.re_match_dotted_quad ip
            then parse_arp_windows rest (set_add ip ips)
            else parse_arp_windows rest ips
        end
  end.

(** The loop over the lines of [arp -n] (Linux, macOS). *)
Fixpoint parse_arp_posix (lines : list string) (ips : list string)
  : list string :=
  match lines with
  | [] => ips
  | line :: rest =>
      match PyStr.split line with
      | ip :: _ =>
          if PyStr.re_match_dotted_quad ip
          then parse_arp_posix rest (set_add ip ips)
          else parse_arp_posix rest ips
      | [] => parse_arp_posix rest ips
      end
  end.

Definition arp_command (os : Platform) : list string :=
  match os with Windows => ["arp"; "-a"] | _ => ["arp"; "-n"] end.

Definition parse_arp (os : Platform) (out : string)
  : list string * Result unit :=
  match os with
  | Windows => parse_arp_windows (PyStr.splitlines out) []
  | _ => (parse_arp_posix (PyStr.splitlines out) [], Ok tt)
  end.

(** [discover_devices()].  The local [ips] outlives an exception of the
    [try] block: the block is run to the pair of the set reached and the
    way it ended, and the [except] clause is the [Raise] branch. *)
Definition discover_devices (env : Env) : M (list string) :=
  let cmd := arp_command (os_type env) in
  tried ← try_catch
             (out ← call (ECheckOutput cmd) (check_output env cmd);
              ret (parse_arp (os_type env) out))
             (fun e => ret ([], Raise e));
  match tried with
  | (ips, Ok _) => ret ips
  | (ips, Raise e) => log (MsgArpFailed e) ;; ret ips
  end.

(** *** Idle checker *)

(** Body of the first loop of [idle_checker]. *)
Definition seed_device (now : Z) (ip : string) : M unit :=
  if decide (ip = BROADCAST) then ret tt        (* skip broadcast *)
  else
    d ← get_last_activity;
    if dict_mem ip d then ret tt
    else set_last_activity ip now ;; log (MsgDiscovered ip).

(** Does the first loop seed [ip] in the registry [d]: not the broadcast
    address, and not a key of the dict. *)
Definition seeds (ip : string) (d : list (string * Z)) : bool :=
  negb (bool_decide (ip = BROADCAST)) && negb (dict_mem ip d).

(** The registry that the first loop leaves, as a function of the one it
    finds ([seed_loop_run] below shows that this is what the loop does). *)
Fixpoint seed_registry (now : Z) (ips : list string) (d : list (string * Z))
  : list (string * Z) :=
  match ips with
  | [] => d
  | ip :: ips' =>
      seed_registry now ips' (if seeds ip d then dict_set ip now d else d)
  end.

(** [idle >= IDLE_TIMEOUT] for [idle = (now - last).total_seconds()]. *)
Definition idle_crossed (cfg : Config) (now last : Z) : bool :=
  IDLE_TIMEOUT cfg * 1000000 <=? now - last.

(** Body of the [if] of the second loop. *)
Definition enforce (cfg : Config) (env : Env) (ip : string) : M unit :=
  log (MsgIdle ip (IDLE_TIMEOUT cfg)) ;;
  notify env "Firewall gAmA" ip (IDLE_TIMEOUT cfg) ;;
  play_sound env ;;
  (if AGGRESSIVE_MODE cfg then block_ip env ip else ret tt) ;;
  blocked_ips_add ip.

(** Body of the second loop of [idle_checker]. *)
Definition check_device (cfg : Config) (env : Env) (now : Z)
    (item : string * Z) : M unit :=
  let '(ip, last) := item in
  if decide (ip = BROADCAST) then ret tt
  else
    blocked ← get_blocked_ips;
    if idle_crossed cfg now last && negb (bool_decide (ip ∈ blocked))
    then enforce cfg env ip
    else ret tt.

(** The two loops, for the discovered addresses [ips]. *)
Definition seed_and_check (cfg : Config) (env : Env) (now : Z)
    (ips : list string) : M unit :=
  for_each ips (seed_device now) ;;
  items ← get_last_activity;           (* list(last_activity.items()) *)
  for_each items (check_device cfg env now).

(** One turn of the [while True] loop of [idle_checker]. *)
Definition idle_checker_cycle (cfg : Config) (env : Env) (now : Z) : M unit :=
  ips ← discover_devices env;
  seed_and_check cfg env now ips.

(** *** The process *)

(** What happens to the process: the sniffer thread delivers a frame, or
    the main thread runs one evaluation cycle.  An exception that leaves
    [idle_checker] ends the main thread and with it the process, so a run
    stops at the first [Raise]. *)
Inductive Input :=
  | Frame (now : Z) (pkt : Packet)
  | Cycle (now : Z) (env : Env).

Definition step (cfg : Config) (i : Input) : M unit :=
  match i with
  | Frame now pkt => packet_handler now pkt
  | Cycle now env => idle_checker_cycle cfg env now
  end.

Definition run_inputs (cfg : Config) (inputs : list Input) : M unit :=
  for_each inputs (step cfg).

(** *** Observations on a run *)

Definition final_state {A} (r : State * list Event * Result A) : State :=
  r.1.1.
Definition trace {A} (r : State * list Event * Result A) : list Event :=
  r.1.2.
Definition result {A} (r : State * list Event * Result A) : Result A :=
  r.2.

Definition is_block_of (ip : string) (ev : Event) : bool :=
  match ev with
  | EBlockIp ip' => bool_decide (ip' = ip)
  | _ => false
  end.

(** How often [block_ip(ip)] was called along a trace. *)
Fixpoint block_count (ip : string) (tr : list Event) : nat :=
  match tr with
  | [] => 0%nat
  | ev :: tr' =>
      ((if is_block_of ip ev then 1 else 0) + block_count ip tr')%nat
  end.

(** Does an event belong to the enforcement of [ip]: its idle line on the
    log, its notification, or its firewall block. *)
Definition is_enforcement_of (ip : string) (ev : Event) : bool :=
  match ev with
  | ELog (MsgIdle ip' _) => bool_decide (ip' = ip)
  | ENotify _ ip' _ => bool_decide (ip' = ip)
  | EBlockIp ip' => bool_decide (ip' = ip)
  | _ => false
  end.

Definition no_enforcement_of (ip : string) (tr : list Event) : Prop :=
  Forall (fun ev => is_enforcement_of ip ev = false) tr.

(** What the external calls of an enforcement leave on the trace, read
    off the environment ([play_sound_run], [block_ip_run] and
    [enforce_run] below show that the code produces exactly these). *)
Definition sound_trace (env : Env) : list Event :=
  if sound_file_exists env
  then EPlaySound ::
       match playsound env with
       | Ok _ => []
       | Raise e => [EPrintSoundError e]
       end
  else [].

(** How the firewall commands for [ip] end, and what was run. *)
Definition firewall_result (env : Env) (ip : string) : Result unit :=
  result (firewall_commands env ip initial_state).

Definition firewall_trace (env : Env) (ip : string) : list Event :=
  trace (firewall_commands env ip initial_state).

Definition block_trace (env : Env) (ip : string) : list Event :=
  EBlockIp ip :: firewall_trace env ip ++
  [ELog match firewall_result env ip with
        | Ok _ => MsgBlocked ip
        | Raise e => MsgBlockFailed ip e
        end].

(** An environment in which nothing fails, for the examples. *)
Definition calm_env (os : Platform) (arp_out : string) : Env :=
  {| os_type := os;
     check_output := fun _ => Ok arp_out;
     run := fun _ => Ok tt;
     notification_notify := fun _ _ _ => Ok tt;
     sound_file_exists := true;
     playsound := Ok tt |}.

End Monitor.

(** ** The monitor with a log and a console that can fail

    [Monitor.log] takes the audit log as the place where a run is
    observed, and never fails.  The source's [log] prints the line and
    appends it to LOG_FILE with no handler of its own, and the handler of
    [play_sound] prints.  This module is the same code with those two
    calls answered by the world as well: the functions below differ from
    their namesakes in [Monitor] only in calling this [log] and this
    [print]; what does not log or print is taken from [Monitor] as it
    is.  As in [Monitor], [Raise e] is an exception of the class
    [Exception], the one that the handlers of the source catch. *)

Module MonitorIO.
Import Monitor.

Record World := {
  (** the external calls of [Monitor] *)
  env : Env;
  (** [log(msg)]: the [print] and the append to LOG_FILE, [Raise e] when
      one of them raises *)
  log_result : LogMsg -> Result unit;
  (** [print(f"[Sound Error] {e}")] *)
  print_result : string -> Result unit
}.

Definition raise {A} (e : string) : M A := fun s => (s, [], Raise e).

(** [log(msg)].  [ELog msg] is the line in LOG_FILE: when the call
    raises, the line has not been written and the exception goes to the
    caller. *)
Definition log (w : World) (m : LogMsg) : M unit :=
  match log_result w m with
  | Ok _ => emit (ELog m)
  | Raise e => raise e
  end.

Definition play_sound (w : World) : M unit :=
  if sound_file_exists (env w)
  then try_catch (call EPlaySound (playsound (env w)))
                 (fun e =>
                    match print_result w e with
                    | Ok _ => emit (EPrintSoundError e)
                    | Raise e' => raise e'
                    end)
  else ret tt.

(** [block_ip(ip)]: the success line is logged inside the [try], the
    failure line inside the handler. *)
Definition block_ip (w : World) (ip : string) : M unit :=
  emit (EBlockIp ip) ;;
  try_catch
    (firewall_commands (env w) ip ;; log w (MsgBlocked ip))
    (fun e => log w (MsgBlockFailed ip e)).

Definition discover_devices (w : World) : M (list string) :=
  let cmd := arp_command (os_type (env w)) in
  tried ← try_catch
             (out ← call (ECheckOutput cmd) (check_output (env w) cmd);
              ret (parse_arp (os_type (env w)) out))
             (fun e => ret ([], Raise e));
  match tried with
  | (ips, Ok _) => ret ips
  | (ips, Raise e) => log w (MsgArpFailed e) ;; ret ips
  end.

Definition seed_device (w : World) (now : Z) (ip : string) : M unit :=
  if decide (ip = BROADCAST) then ret tt
  else
    d ← get_last_activity;
    if dict_mem ip d then ret tt
    else set_last_activity ip now ;; log w (MsgDiscovered ip).

Definition enforce (cfg : Config) (w : World) (ip : string) : M unit :=
  log w (MsgIdle ip (IDLE_TIMEOUT cfg)) ;;
  notify (env w) "Firewall gAmA" ip (IDLE_TIMEOUT cfg) ;;
  play_sound w ;;
  (if AGGRESSIVE_MODE cfg then block_ip w ip else ret tt) ;;
  blocked_ips_add ip.

Definition check_device (cfg : Config) (w : World) (now : Z)
    (item : string * Z) : M unit :=
  let '(ip, last) := item in
  if decide (ip = BROADCAST) then ret tt
  else
    blocked ← get_blocked_ips;
    if idle_crossed cfg now last && negb (bool_decide (ip ∈ blocked))
    then enforce cfg w ip
    else ret tt.

Definition seed_and_check (cfg : Config) (w : World) (now : Z)
    (ips : list string) : M unit :=
  for_each ips (seed_device w now) ;;
  items ← get_last_activity;
  for_each items (check_device cfg w now).

Definition idle_checker_cycle (cfg : Config) (w : World) (now : Z) : M unit :=
  ips ← discover_devices w;
  seed_and_check cfg w now ips.

(** A world in which the log and the console work. *)
Definition quiet (w : World) : Prop :=
  (forall m, log_result w m = Ok tt) /\ (forall e, print_result w e = Ok tt).

(** The failures that no handler of the cycle catches: of a [log] call,
    of the notification of an address that is evaluated, of the [print]
    in the handler of [play_sound]. *)
Definition unhandled (cfg : Config) (w : World) (e : string) : Prop :=
  (exists m, log_result w m = Raise e)
  \/ (exists ip,
        ip <> BROADCAST
        /\ notification_notify (env w) "Firewall gAmA" ip (IDLE_TIMEOUT cfg)
           = Raise e)
  \/ (exists e0, playsound (env w) = Raise e0 /\ print_result w e0 = Raise e).

End MonitorIO.

Import Monitor.

(** ** Vocabulary of the properties *)

(** A relation between the state before, the state after and the trace
    in between that holds of doing nothing and composes along a
    sequence. *)
Class Closed (R : State -> State -> list Event -> Prop) : Prop := {
  closed_refl : forall s, R s s [];
  closed_trans : forall s s1 s2 t1 t2,
    R s s1 t1 -> R s1 s2 t2 -> R s s2 (t1 ++ t2)
}.

Definition keeps {A} (R : State -> State -> list Event -> Prop) (m : M A)
  : Prop :=
  forall s, R s (final_state (m s)) (trace (m s)).

Definition same_registry (s s' : State) (_ : list Event) : Prop :=
  last_activity s' = last_activity s.

(** [ip] is neither added to nor removed from the blocked set, and no
    event of the enforcement of [ip] occurs. *)
Definition untouched (ip : string) (s s' : State) (t : list Event) : Prop :=
  (ip ∈ blocked_ips s' <-> ip ∈ blocked_ips s) /\ no_enforcement_of ip t.

(** Once [ip] is in the blocked set it stays there and nothing of its
    enforcement occurs. *)
Definition gated (ip : string) (s s' : State) (t : list Event) : Prop :=
  ip ∈ blocked_ips s -> ip ∈ blocked_ips s' /\ no_enforcement_of ip t.

Definition stays_blocked (ip : string) (s s' : State) (_ : list Event)
  : Prop :=
  ip ∈ blocked_ips s -> ip ∈ blocked_ips s'.

(** The keys of the registry, in the order of the dict. *)
Definition keys (d : list (string * Z)) : list string := map fst d.

(** The dict holds one record per key. *)
Definition unique_keys (s s' : State) (_ : list Event) : Prop :=
  NoDup (keys (last_activity s)) -> NoDup (keys (last_activity s')).

(** The registry keeps its records, in their order, and gets new ones at
    the end. *)
Definition registry_grows (s s' : State) (_ : list Event) : Prop :=
  keys (last_activity s) `prefix_of` keys (last_activity s').

(** [block_ip ip] is called at most once, never for a blocked address, and
    only on the way into the blocked set. *)
Definition once (ip : string) (s s' : State) (t : list Event) : Prop :=
  (ip ∈ blocked_ips s -> ip ∈ blocked_ips s' /\ block_count ip t = 0%nat)
  /\ (block_count ip t <= 1)%nat
  /\ (0 < block_count ip t -> ip ∈ blocked_ips s')%nat.

(** An address that is blocked now was blocked before or has had its idle
    line logged and its notification requested. *)
Definition announced (cfg : Config) (ip : string) (s s' : State)
    (t : list Event) : Prop :=
  ip ∈ blocked_ips s' ->
  ip ∈ blocked_ips s
  \/ (ELog (MsgIdle ip (IDLE_TIMEOUT cfg)) ∈ t
      /\ ENotify "Firewall gAmA" ip (IDLE_TIMEOUT cfg) ∈ t).

(** Events of the host firewall: a call of [block_ip], a command run. *)
Definition touches_firewall (ev : Event) : bool :=
  match ev with
  | ERun _ | EBlockIp _ => true
  | _ => false
  end.

Definition firewall_free (_ _ : State) (t : list Event) : Prop :=
  Forall (fun ev => touches_firewall ev = false) t.

(** What a frame does to the [last_seen] of [k]. *)
Definition after_frame (now : Z) (pkt : Packet) (k : string)
    (before : option Z) : option Z :=
  match pkt with
  | Some (src, dst) =>
      if bool_decide (k = src) || bool_decide (k = dst)
      then Some now else before
  | None => before
  end.

(** The test of the second loop on one record: not the broadcast
    address, idle for the threshold, not blocked yet. *)
Definition due (cfg : Config) (now : Z) (s : State) (item : string * Z)
  : bool :=
  negb (bool_decide (item.1 = BROADCAST))
  && idle_crossed cfg now item.2
  && negb (bool_decide (item.1 ∈ blocked_ips s)).

(** A line of the ARP table names [ip]: its first field is [ip], and [ip]
    starts with a dotted quad. *)
Definition names_device (line ip : string) : Prop :=
  exists rest,
    PyStr.split line = ip :: rest /\ PyStr.re_match_dotted_quad ip = true.

(** The firewall rules that [block_ip] installs for [ip], in the order of
    the source: the inbound rule, then the outbound rule; none on a
    platform that is neither Windows nor Linux. *)
Definition platform_rules (os : Platform) (ip : string) : list (list string) :=
  match os with
  | Windows => [netsh_rule "in" ip; netsh_rule "out" ip]
  | Linux =>
      [["iptables"; "-I"; "INPUT"; "-s"; ip; "-j"; "DROP"];
       ["iptables"; "-I"; "OUTPUT"; "-d"; ip; "-j"; "DROP"]]
  | OtherOS => []
  end.

(** A computation raises only what [P] allows. *)
Definition raises_only {A} (P : string -> Prop) (m : M A) : Prop :=
  forall s e, result (m s) = Raise e -> P e.

(** ** Concrete states and environments *)

(** The end-to-end scenario of the specification: 10.0.0.5 seeded at
    t = 0, no traffic, evaluated at t = 10 s. *)
Definition idle_device_state : State :=
  {| last_activity := [("10.0.0.5", 0)]; blocked_ips := ∅ |}.

(** A registry that holds the broadcast address, as left by a frame sent
    to it at t = 0. *)
Definition broadcast_seen_state : State :=
  {| last_activity := [("255.255.255.255", 0)]; blocked_ips := ∅ |}.

(** The source's constants with the firewall switched to safe mode. *)
Definition safe_config : Config :=
  {| IDLE_TIMEOUT := 10; AGGRESSIVE_MODE := false |}.


(** An environment in which iptables is refused. *)
Definition firewall_down_env : Env :=
  {| os_type := Linux;
     check_output := fun _ => Ok "";
     run := fun _ => Raise "iptables: returned non-zero exit status 4";
     notification_notify := fun _ _ _ => Ok tt;
     sound_file_exists := false;
     playsound := Ok tt |}.

(** An environment without a notification backend. *)
Definition notify_down_env : Env :=
  {| os_type := Linux;
     check_output := fun _ => Ok "";
     run := fun _ => Ok tt;
     notification_notify := fun _ _ _ => Raise "No usable implementation found!";
     sound_file_exists := true;
     playsound := Ok tt |}.

(** A world without a notification backend, its log and console
    working. *)
Definition notify_down_world : MonitorIO.World :=
  {| MonitorIO.env := notify_down_env;
     MonitorIO.log_result := fun _ => Ok tt;
     MonitorIO.print_result := fun _ => Ok tt |}.

(** * Properties *)

(** ** Relations that every step of a computation keeps *)

Section Keeps.
Context (R : State -> State -> list Event -> Prop) `{!Closed R}.

Lemma keeps_ret {A} (a : A) : keeps R (ret a).
Proof. intros s. apply closed_refl. Qed.

Lemma keeps_bind {A B} (m : M A) (f : A -> M B) :
  keeps R m -> (forall a, keeps R (f a)) -> keeps R (m ≫= f).
Proof.
  intros Hm Hf s. unfold mbind, M_bind, bind.
  specialize (Hm s). destruct (m s) as [[s1 t1] [a|e]]; cbn in *.
  - specialize (Hf a s1). destruct (f a s1) as [[s2 t2] r]; cbn in *.
    eapply closed_trans; eassumption.
  - exact Hm.
Qed.

Lemma keeps_try_catch {A} (m : M A) (h : string -> M A) :
  keeps R m -> (forall e, keeps R (h e)) -> keeps R (try_catch m h).
Proof.
  intros Hm Hh s. unfold try_catch.
  specialize (Hm s). destruct (m s) as [[s1 t1] [a|e]]; cbn in *.
  - exact Hm.
  - specialize (Hh e s1). destruct (h e s1) as [[s2 t2] r]; cbn in *.
    eapply closed_trans; eassumption.
Qed.

Lemma keeps_for_each {A} (l : list A) (body : A -> M unit) :
  (forall x, x ∈ l -> keeps R (body x)) -> keeps R (for_each l body).
Proof.
  induction l as [|x l IH]; intros Hb; cbn [for_each].
  - apply keeps_ret.
  - apply keeps_bind.
    + apply Hb. left.
    + intros _. apply IH. intros y Hy. apply Hb. now right.
Qed.

Lemma keeps_emit (ev : Event) :
  (forall s, R s s [ev]) -> keeps R (emit ev).
Proof. intros H s. apply H. Qed.

Lemma keeps_call {A} (ev : Event) (r : Result A) :
  (forall s, R s s [ev]) -> keeps R (call ev r).
Proof. intros H s. apply H. Qed.

Lemma keeps_get_last_activity : keeps R get_last_activity.
Proof. intros s. apply closed_refl. Qed.

Lemma keeps_get_blocked_ips : keeps R get_blocked_ips.
Proof. intros s. apply closed_refl. Qed.
End Keeps.

(** Splits a computation along its binds, handlers, loops and branches,
    down to the events and the two assignments. *)
Ltac keeps_split :=
  repeat first
    [ solve [auto with keeps]
    | apply keeps_ret; [assumption || typeclasses eauto ..]
    | apply keeps_get_last_activity; [typeclasses eauto ..]
    | apply keeps_get_blocked_ips; [typeclasses eauto ..]
    | apply keeps_for_each; [typeclasses eauto | intros ? _ ]
    | apply keeps_bind; [typeclasses eauto | | intros ? ]
    | apply keeps_try_catch; [typeclasses eauto | | intros ? ]
    | apply keeps_emit
    | apply keeps_call
    | match goal with
      | |- keeps _ (if ?b then _ else _) => destruct b
      | |- keeps _ (match ?x with _ => _ end) => destruct x
      end ].

(** *** The registry is left alone *)

#[global] Instance same_registry_closed : Closed same_registry.
Proof.
  split; unfold same_registry; [reflexivity|].
  intros s s1 s2 _ _ H1 H2. congruence.
Qed.

(** *** Nothing is done about one address *)

#[global] Instance untouched_closed ip : Closed (untouched ip).
Proof.
  split; unfold untouched, no_enforcement_of.
  - intros s. split; [reflexivity | constructor].
  - intros s s1 s2 t1 t2 [H1 F1] [H2 F2]. split.
    + now rewrite H2.
    + apply Forall_app. now split.
Qed.

(** *** The gate of the blocked set *)

#[global] Instance gated_closed ip : Closed (gated ip).
Proof.
  split; unfold gated, no_enforcement_of.
  - intros s H. split; [assumption | constructor].
  - intros s s1 s2 t1 t2 H1 H2 H.
    destruct (H1 H) as [H1' F1]. destruct (H2 H1') as [H2' F2].
    split; [assumption|]. apply Forall_app. now split.
Qed.

Lemma untouched_gated {A} ip (m : M A) :
  keeps (untouched ip) m -> keeps (gated ip) m.
Proof. intros H s Hin. destruct (H s) as [Hb Ht]. split; [now apply Hb | assumption]. Qed.

Create HintDb keeps discriminated.

Lemma untouched_event ip ev :
  is_enforcement_of ip ev = false -> forall s, untouched ip s s [ev].
Proof.
  intros H s. split; [reflexivity|]. repeat constructor. exact H.
Qed.

Lemma same_registry_event ev s : same_registry s s [ev].
Proof. reflexivity. Qed.

Lemma idle_line_of_other ip k t :
  k <> ip -> is_enforcement_of ip (ELog (MsgIdle k t)) = false.
Proof. intros H. cbn. now apply bool_decide_eq_false_2. Qed.

Lemma notify_of_other ip k title t :
  k <> ip -> is_enforcement_of ip (ENotify title k t) = false.
Proof. intros H. cbn. now apply bool_decide_eq_false_2. Qed.

Lemma block_of_other ip k :
  k <> ip -> is_enforcement_of ip (EBlockIp k) = false.
Proof. intros H. cbn. now apply bool_decide_eq_false_2. Qed.

#[global] Hint Resolve untouched_event same_registry_event
  idle_line_of_other notify_of_other block_of_other : keeps.

(** The assignments. *)

Lemma set_last_activity_untouched ip k v :
  keeps (untouched ip) (set_last_activity k v).
Proof. intros s. split; [reflexivity | constructor]. Qed.

Lemma blocked_ips_add_same_registry k :
  keeps same_registry (blocked_ips_add k).
Proof. intros s. reflexivity. Qed.

Lemma blocked_ips_add_untouched ip k :
  k <> ip -> keeps (untouched ip) (blocked_ips_add k).
Proof.
  intros H s. split; [|constructor]. cbn.
  rewrite elem_of_union, elem_of_singleton.
  split; [intros [->|Hin]; [congruence | exact Hin] | now right].
Qed.

#[global] Hint Resolve set_last_activity_untouched
  blocked_ips_add_same_registry
  blocked_ips_add_untouched : keeps.

(** Finishes what [keeps_split] leaves: single events and assignments. *)
Ltac keeps_auto :=
  keeps_split; try solve [intros; auto with keeps].

(** The helpers and the enforcement, for an address other than [ip]. *)

Lemma play_sound_untouched ip env : keeps (untouched ip) (play_sound env).
Proof. unfold play_sound. keeps_auto. Qed.

Lemma block_ip_untouched ip env k :
  k <> ip -> keeps (untouched ip) (block_ip env k).
Proof.
  intros H. unfold block_ip, firewall_commands, run_cmd, log. keeps_auto.
Qed.

Lemma enforce_untouched ip cfg env k :
  k <> ip -> keeps (untouched ip) (enforce cfg env k).
Proof.
  intros H. unfold enforce, log, notify.
  pose proof (block_ip_untouched ip env k H).
  pose proof (play_sound_untouched ip env).
  keeps_auto.
Qed.

Lemma check_device_untouched ip cfg env now k v :
  k <> ip -> keeps (untouched ip) (check_device cfg env now (k, v)).
Proof.
  intros H. unfold check_device.
  pose proof (enforce_untouched ip cfg env k H).
  keeps_auto.
Qed.

Lemma packet_handler_untouched ip now pkt :
  keeps (untouched ip) (packet_handler now pkt).
Proof.
  unfold packet_handler. destruct pkt as [[src dst]|]; keeps_auto.
Qed.

Lemma discover_devices_untouched ip env :
  keeps (untouched ip) (discover_devices env).
Proof. unfold discover_devices, log. keeps_auto. Qed.

Lemma seed_device_untouched ip now k :
  keeps (untouched ip) (seed_device now k).
Proof. unfold seed_device, log. keeps_auto. Qed.

(** *** Membership in the blocked set is kept *)

#[global] Instance stays_blocked_closed ip : Closed (stays_blocked ip).
Proof.
  split; unfold stays_blocked; [tauto|].
  intros s s1 s2 _ _ H1 H2 H. auto.
Qed.

Lemma stays_blocked_event ip ev s : stays_blocked ip s s [ev].
Proof. intros H. exact H. Qed.

Lemma set_last_activity_stays_blocked ip k v :
  keeps (stays_blocked ip) (set_last_activity k v).
Proof. intros s H. exact H. Qed.

Lemma blocked_ips_add_stays_blocked ip k :
  keeps (stays_blocked ip) (blocked_ips_add k).
Proof. intros s H. cbn. apply elem_of_union. now right. Qed.

#[global] Hint Resolve stays_blocked_event set_last_activity_stays_blocked
  blocked_ips_add_stays_blocked : keeps.

Ltac unfold_monitor :=
  unfold run_inputs, step, idle_checker_cycle, seed_and_check,
    check_device, enforce, seed_device, discover_devices, packet_handler,
    block_ip, firewall_commands, run_cmd, play_sound, notify, log.

Lemma block_ip_stays_blocked ip env k :
  keeps (stays_blocked ip) (block_ip env k).
Proof. unfold_monitor. keeps_auto. Qed.

Lemma enforce_stays_blocked ip cfg env k :
  keeps (stays_blocked ip) (enforce cfg env k).
Proof. unfold_monitor. keeps_auto. Qed.

Lemma packet_handler_stays_blocked ip now pkt :
  keeps (stays_blocked ip) (packet_handler now pkt).
Proof. unfold_monitor. keeps_auto. Qed.

Lemma discover_devices_stays_blocked ip env :
  keeps (stays_blocked ip) (discover_devices env).
Proof. unfold_monitor. keeps_auto. Qed.

Lemma seed_loop_stays_blocked ip now ips :
  keeps (stays_blocked ip) (for_each ips (seed_device now)).
Proof. unfold_monitor. keeps_auto. Qed.

Lemma check_loop_stays_blocked ip cfg env now items :
  keeps (stays_blocked ip) (for_each items (check_device cfg env now)).
Proof. unfold_monitor. keeps_auto. Qed.

Lemma run_inputs_stays_blocked ip cfg inputs :
  keeps (stays_blocked ip) (run_inputs cfg inputs).
Proof. unfold_monitor. keeps_auto. Qed.

(** *** The evaluation loop behind the gate *)

Lemma check_device_skips_blocked cfg env now ip v s :
  ip ∈ blocked_ips s -> check_device cfg env now (ip, v) s = (s, [], Ok tt).
Proof.
  intros Hin. unfold check_device.
  destruct (decide (ip = BROADCAST)); [reflexivity|].
  unfold mbind, M_bind, bind, get_blocked_ips.
  rewrite (bool_decide_eq_true_2 _ Hin), andb_false_r. reflexivity.
Qed.

Lemma check_device_skips_broadcast cfg env now v s :
  check_device cfg env now (BROADCAST, v) s = (s, [], Ok tt).
Proof.
  unfold check_device. destruct (decide (BROADCAST = BROADCAST)); [reflexivity|].
  congruence.
Qed.

Lemma check_device_gated ip cfg env now item :
  keeps (gated ip) (check_device cfg env now item).
Proof.
  destruct item as [k v]. destruct (decide (k = ip)) as [->|Hk].
  - intros s Hin. rewrite check_device_skips_blocked by assumption.
    split; [assumption | constructor].
  - apply untouched_gated. now apply check_device_untouched.
Qed.

Lemma check_device_broadcast_untouched cfg env now item :
  keeps (untouched BROADCAST) (check_device cfg env now item).
Proof.
  destruct item as [k v]. destruct (decide (k = BROADCAST)) as [->|Hk].
  - intros s. rewrite check_device_skips_broadcast. apply closed_refl.
  - now apply check_device_untouched.
Qed.

Lemma run_inputs_gated ip cfg inputs : keeps (gated ip) (run_inputs cfg inputs).
Proof.
  pose proof (check_device_gated ip cfg) as Hc.
  pose proof (fun e => untouched_gated ip _ (discover_devices_untouched ip e)) as Hd.
  pose proof (fun n k => untouched_gated ip _ (seed_device_untouched ip n k)) as Hs.
  pose proof (fun n p => untouched_gated ip _ (packet_handler_untouched ip n p)) as Hp.
  unfold run_inputs, step, idle_checker_cycle, seed_and_check.
  keeps_split; auto.
Qed.

Lemma run_inputs_broadcast_untouched cfg inputs :
  keeps (untouched BROADCAST) (run_inputs cfg inputs).
Proof.
  pose proof (check_device_broadcast_untouched cfg) as Hc.
  pose proof (discover_devices_untouched BROADCAST) as Hd.
  pose proof (seed_device_untouched BROADCAST) as Hs.
  pose proof (packet_handler_untouched BROADCAST) as Hp.
  unfold run_inputs, step, idle_checker_cycle, seed_and_check.
  keeps_split; auto.
Qed.

Lemma idle_checker_cycle_broadcast_untouched cfg env now :
  keeps (untouched BROADCAST) (idle_checker_cycle cfg env now).
Proof.
  pose proof (check_device_broadcast_untouched cfg) as Hc.
  pose proof (discover_devices_untouched BROADCAST) as Hd.
  pose proof (seed_device_untouched BROADCAST) as Hs.
  unfold idle_checker_cycle, seed_and_check.
  keeps_split; auto.
Qed.

Lemma no_enforcement_block_count ip t :
  no_enforcement_of ip t -> block_count ip t = 0%nat.
Proof.
  induction 1 as [|ev t Hev _ IH]; [reflexivity|].
  cbn [block_count]. rewrite IH.
  destruct ev as [[]| | | | | |]; cbn in *; try reflexivity.
  now rewrite Hev.
Qed.

Lemma block_count_app ip t1 t2 :
  block_count ip (t1 ++ t2) = (block_count ip t1 + block_count ip t2)%nat.
Proof.
  induction t1 as [|ev t1 IH]; [reflexivity|].
  cbn [block_count app]. rewrite IH. lia.
Qed.

(** ** C2: blocking is one-way *)

(** C2. An address that is in the blocked set is still in it after any
    operation of the engine: a captured frame, neighbor discovery, the
    seeding loop, the evaluation loop, the enforcement of any address, the
    firewall block of any address, and any run of frames and cycles,
    whether the run ends normally or by an exception. *)
Theorem blocked_is_terminal (cfg : Config) (ip : string) (s : State)
    (Hin : ip ∈ blocked_ips s) :
  (forall now pkt, ip ∈ blocked_ips (final_state (packet_handler now pkt s))) /\
  (forall env, ip ∈ blocked_ips (final_state (discover_devices env s))) /\
  (forall now ips,
     ip ∈ blocked_ips (final_state (for_each ips (seed_device now) s))) /\
  (forall env now items,
     ip ∈ blocked_ips
       (final_state (for_each items (check_device cfg env now) s))) /\
  (forall env k, ip ∈ blocked_ips (final_state (enforce cfg env k s))) /\
  (forall env k, ip ∈ blocked_ips (final_state (block_ip env k s))) /\
  (forall inputs, ip ∈ blocked_ips (final_state (run_inputs cfg inputs s))).
Proof.
  repeat split; intros.
  - now apply packet_handler_stays_blocked.
  - now apply discover_devices_stays_blocked.
  - now apply seed_loop_stays_blocked.
  - now apply check_loop_stays_blocked.
  - now apply enforce_stays_blocked.
  - now apply block_ip_stays_blocked.
  - now apply run_inputs_stays_blocked.
Qed.

Lemma blocked_is_terminal_witness :
  "10.0.0.5" ∈
  blocked_ips
    (final_state
       (run_inputs source_config
          [Frame 3000000 (Some ("10.0.0.5", "10.0.0.1"));
           Cycle 20000000 (calm_env Linux "10.0.0.5 ether aa:bb:cc:dd:ee:ff C eth0")]
          {| last_activity := [("10.0.0.5", 0)];
             blocked_ips := {[ "10.0.0.5" ]} |})).
Proof.
  apply (blocked_is_terminal source_config "10.0.0.5"
           {| last_activity := [("10.0.0.5", 0)];
              blocked_ips := {[ "10.0.0.5" ]} |}).
  vm_compute. reflexivity.
Defined.

(** ** C10: the evaluation loop skips the broadcast address *)

(** C10. Whatever the registry holds, the broadcast address included, an
    evaluation cycle neither adds 255.255.255.255 to the blocked set nor
    calls [block_ip] with it, nor logs or notifies its idleness; the same
    holds along every run of frames and cycles. *)
Theorem broadcast_never_enforced (cfg : Config) (s : State) :
  (forall env now,
     (BROADCAST ∈ blocked_ips (final_state (idle_checker_cycle cfg env now s))
      <-> BROADCAST ∈ blocked_ips s) /\
     block_count BROADCAST (trace (idle_checker_cycle cfg env now s)) = 0%nat /\
     no_enforcement_of BROADCAST (trace (idle_checker_cycle cfg env now s))) /\
  (forall inputs,
     (BROADCAST ∈ blocked_ips (final_state (run_inputs cfg inputs s))
      <-> BROADCAST ∈ blocked_ips s) /\
     block_count BROADCAST (trace (run_inputs cfg inputs s)) = 0%nat /\
     no_enforcement_of BROADCAST (trace (run_inputs cfg inputs s))).
Proof.
  split.
  - intros env now.
    destruct (idle_checker_cycle_broadcast_untouched cfg env now s) as [Hb Ht].
    auto using no_enforcement_block_count.
  - intros inputs.
    destruct (run_inputs_broadcast_untouched cfg inputs s) as [Hb Ht].
    auto using no_enforcement_block_count.
Qed.

(** ** The registry as a dict *)

Lemma dict_get_set_same k v d : dict_get k (dict_set k v d) = Some v.
Proof.
  induction d as [|[k' v'] d IH]; cbn.
  - now rewrite decide_True.
  - destruct (decide (k' = k)) as [->|Hk]; cbn.
    + now rewrite decide_True.
    + now rewrite decide_False.
Qed.

Lemma dict_get_set_other k k' v d :
  k' <> k -> dict_get k' (dict_set k v d) = dict_get k' d.
Proof.
  intros Hne. induction d as [|[k0 v0] d IH]; cbn.
  - now rewrite decide_False by congruence.
  - destruct (decide (k0 = k)) as [->|Hk]; cbn.
    + now rewrite !decide_False by congruence.
    + destruct (decide (k0 = k')); [reflexivity | exact IH].
Qed.

Lemma dict_set_absent k v d :
  dict_get k d = None -> dict_set k v d = d ++ [(k, v)].
Proof.
  induction d as [|[k' v'] d IH]; cbn; [reflexivity|].
  destruct (decide (k' = k)); [discriminate|].
  intros H. now rewrite IH.
Qed.


(** ** The seeding loop *)

Lemma for_each_cons_run {A} (x : A) l body s :
  for_each (x :: l) body s =
  match body x s with
  | (s1, t1, Ok _) =>
      match for_each l body s1 with (s2, t2, r) => (s2, t1 ++ t2, r) end
  | (s1, t1, Raise e) => (s1, t1, Raise e)
  end.
Proof. reflexivity. Qed.

Lemma seed_device_run now ip s :
  seed_device now ip s =
  (if seeds ip (last_activity s)
   then ({| last_activity := dict_set ip now (last_activity s);
            blocked_ips := blocked_ips s |}, [ELog (MsgDiscovered ip)])
   else (s, []), Ok tt).
Proof.
  unfold seed_device, seeds.
  destruct (decide (ip = BROADCAST)) as [->|Hb]; cbn.
  - now rewrite bool_decide_eq_true_2.
  - rewrite bool_decide_eq_false_2 by assumption. cbn.
    unfold mbind, M_bind, bind, get_last_activity.
    destruct (dict_mem ip (last_activity s)); reflexivity.
Qed.

Lemma seed_loop_run now ips s :
  exists t,
    for_each ips (seed_device now) s =
      ({| last_activity := seed_registry now ips (last_activity s);
          blocked_ips := blocked_ips s |}, t, Ok tt)
    /\ forall ip, no_enforcement_of ip t.
Proof.
  revert s. induction ips as [|ip ips IH]; intros s.
  - exists []. split; [destruct s; reflexivity | constructor].
  - rewrite for_each_cons_run, seed_device_run. cbn [seed_registry].
    destruct (seeds ip (last_activity s)).
    + edestruct IH as [t [-> Ht]]. eexists. split; [reflexivity|].
      intros k. constructor; [reflexivity | apply Ht].
    + destruct (IH s) as [t [-> Ht]]. eexists. split; [reflexivity|].
      exact Ht.
Qed.

Lemma seed_registry_present now ips k v d :
  dict_get k d = Some v -> dict_get k (seed_registry now ips d) = Some v.
Proof.
  revert d. induction ips as [|ip ips IH]; intros d H; cbn; [exact H|].
  apply IH. destruct (seeds ip d) eqn:Hs; [|exact H].
  rewrite dict_get_set_other; [exact H|].
  intros ->. unfold seeds, dict_mem in Hs. rewrite H in Hs.
  now rewrite andb_false_r in Hs.
Qed.




(** ** Discovery *)

Ltac run_monad :=
  unfold mbind, M_bind, bind, try_catch, call, emit, ret, log,
    get_last_activity, get_blocked_ips; cbn.

Lemma bind_run {A B} (m : M A) (f : A -> M B) s :
  (m ≫= f) s =
  match m s with
  | (s1, t1, Ok a) => match f a s1 with (s2, t2, r) => (s2, t1 ++ t2, r) end
  | (s1, t1, Raise e) => (s1, t1, Raise e)
  end.
Proof. reflexivity. Qed.

(** [discover_devices] always returns, and leaves the globals alone. *)
Lemma discover_devices_returns env s :
  exists t ips,
    discover_devices env s = (s, t, Ok ips)
    /\ forall ip, no_enforcement_of ip t.
Proof.
  unfold discover_devices. run_monad.
  destruct (check_output env (arp_command (os_type env))) as [out|e]; cbn.
  - destruct (parse_arp (os_type env) out) as [ips [[]|e]]; cbn;
      do 2 eexists; (split; [reflexivity|]); intros ip;
      repeat constructor.
  - do 2 eexists. split; [reflexivity|]. intros ip. repeat constructor.
Qed.

(** ** C8: a failed neighbor-table query *)



(** ** C9: discovery seeds only absent addresses *)




(** ** What one enforcement does *)

Lemma firewall_commands_run env ip s :
  firewall_commands env ip s
  = (s, firewall_trace env ip, firewall_result env ip).
Proof.
  unfold firewall_trace, firewall_result, firewall_commands, run_cmd.
  destruct (os_type env); run_monad; try reflexivity;
    repeat match goal with
           | |- context [run env ?c] => destruct (run env c); cbn
           end; reflexivity.
Qed.

Lemma play_sound_run env s : play_sound env s = (s, sound_trace env, Ok tt).
Proof.
  unfold play_sound, sound_trace. destruct (sound_file_exists env);
    [|reflexivity].
  run_monad. destruct (playsound env) as [[]|e]; reflexivity.
Qed.

(** [block_ip] returns normally whatever the firewall commands do. *)
Lemma block_ip_run env ip s : block_ip env ip s = (s, block_trace env ip, Ok tt).
Proof.
  unfold block_ip, block_trace. rewrite bind_run. cbn.
  unfold try_catch. rewrite bind_run, firewall_commands_run.
  destruct (firewall_result env ip) as [[]|e]; cbn; reflexivity.
Qed.

Lemma enforce_run cfg env ip s :
  enforce cfg env ip s =
  match notification_notify env "Firewall gAmA" ip (IDLE_TIMEOUT cfg) with
  | Ok _ =>
      ({| last_activity := last_activity s;
          blocked_ips := {[ ip ]} ∪ blocked_ips s |},
       ELog (MsgIdle ip (IDLE_TIMEOUT cfg))
       :: ENotify "Firewall gAmA" ip (IDLE_TIMEOUT cfg)
       :: sound_trace env
          ++ (if AGGRESSIVE_MODE cfg then block_trace env ip else []),
       Ok tt)
  | Raise e =>
      (s, [ELog (MsgIdle ip (IDLE_TIMEOUT cfg));
           ENotify "Firewall gAmA" ip (IDLE_TIMEOUT cfg)], Raise e)
  end.
Proof.
  unfold enforce, notify. run_monad.
  destruct (notification_notify env "Firewall gAmA" ip (IDLE_TIMEOUT cfg))
    as [[]|e]; [|reflexivity].
  rewrite play_sound_run.
  destruct (AGGRESSIVE_MODE cfg).
  - rewrite block_ip_run. cbn. now rewrite !app_nil_r.
  - cbn. now rewrite !app_nil_r.
Qed.

(** The second loop runs the enforcement of an address that is not the
    broadcast address, has crossed the threshold and is not blocked. *)
Lemma check_device_enforces cfg env now ip last s :
  ip <> BROADCAST -> idle_crossed cfg now last = true ->
  ip ∉ blocked_ips s ->
  check_device cfg env now (ip, last) s = enforce cfg env ip s.
Proof.
  intros Hb Hi Hn. unfold check_device.
  rewrite decide_False by assumption.
  rewrite bind_run. cbn. rewrite Hi, bool_decide_eq_false_2 by assumption.
  cbn. destruct (enforce cfg env ip s) as [[s1 t1] [[]|e]]; reflexivity.
Qed.

Lemma check_device_not_crossed cfg env now ip last s :
  idle_crossed cfg now last = false ->
  check_device cfg env now (ip, last) s = (s, [], Ok tt).
Proof.
  intros Hi. unfold check_device.
  destruct (decide (ip = BROADCAST)); [reflexivity|].
  rewrite bind_run. cbn. now rewrite Hi.
Qed.

Lemma block_count_sound_trace ip env : block_count ip (sound_trace env) = 0%nat.
Proof.
  unfold sound_trace. destruct (sound_file_exists env); [|reflexivity].
  destruct (playsound env); reflexivity.
Qed.

Lemma block_count_firewall_trace ip env k :
  block_count ip (firewall_trace env k) = 0%nat.
Proof.
  unfold firewall_trace, firewall_commands, run_cmd.
  destruct (os_type env); run_monad; try reflexivity;
    repeat match goal with
           | |- context [run env ?c] => destruct (run env c); cbn
           end; reflexivity.
Qed.

Lemma block_count_block_trace ip env :
  block_count ip (block_trace env ip) = 1%nat.
Proof.
  unfold block_trace. cbn [block_count is_block_of].
  rewrite bool_decide_eq_true_2 by reflexivity.
  rewrite block_count_app, block_count_firewall_trace. reflexivity.
Qed.

(** An enforcement that returns has called [block_ip] once (in aggressive
    mode) and has put the address into the blocked set. *)
Lemma enforce_returns cfg env ip s :
  AGGRESSIVE_MODE cfg = true ->
  result (enforce cfg env ip s) = Ok tt ->
  block_count ip (trace (enforce cfg env ip s)) = 1%nat
  /\ ip ∈ blocked_ips (final_state (enforce cfg env ip s)).
Proof.
  intros Ha. rewrite enforce_run.
  destruct (notification_notify env "Firewall gAmA" ip (IDLE_TIMEOUT cfg))
    as [[]|e]; cbn; [|discriminate].
  intros _. rewrite Ha. split.
  - rewrite block_count_app, block_count_sound_trace.
    apply block_count_block_trace.
  - apply elem_of_union. left. now apply elem_of_singleton.
Qed.

(** ** The two loops of a cycle *)

Lemma check_loop_same_registry cfg env now items :
  keeps same_registry (for_each items (check_device cfg env now)).
Proof. unfold_monitor. keeps_auto. Qed.

(** A cycle is the query, then the seeding loop, then the evaluation of
    the seeded registry; the first two leave nothing of an enforcement on
    the trace and do not touch the blocked set. *)
Lemma idle_checker_cycle_run cfg env now s :
  exists ips t0,
    result (discover_devices env s) = Ok ips
    /\ (forall ip, no_enforcement_of ip t0)
    /\ idle_checker_cycle cfg env now s =
       match
         for_each (seed_registry now ips (last_activity s))
           (check_device cfg env now)
           {| last_activity := seed_registry now ips (last_activity s);
              blocked_ips := blocked_ips s |}
       with (s2, t2, r) => (s2, t0 ++ t2, r)
       end.
Proof.
  destruct (discover_devices_returns env s) as (t & ips & Hd & Ht).
  destruct (seed_loop_run now ips s) as (t' & Hs & Ht').
  exists ips, (t ++ t'). split; [now rewrite Hd|]. split.
  - intros ip. apply Forall_app. split; [apply Ht | apply Ht'].
  - unfold idle_checker_cycle, seed_and_check.
    rewrite bind_run, Hd, bind_run, Hs, bind_run. cbn.
    match goal with
    | |- context [for_each ?l ?b ?s] => destruct (for_each l b s) as [[s2 t2] r]
    end.
    now rewrite app_assoc.
Qed.

Lemma check_loop_quiet cfg env now ip items :
  (forall v, (ip, v) ∈ items -> idle_crossed cfg now v = false) ->
  keeps (untouched ip) (for_each items (check_device cfg env now)).
Proof.
  intros H. apply keeps_for_each; [typeclasses eauto|].
  intros [k v] Hin. destruct (decide (k = ip)) as [->|Hk].
  - intros s. rewrite check_device_not_crossed by auto. apply closed_refl.
  - now apply check_device_untouched.
Qed.

Lemma idle_crossed_now cfg now :
  0 < IDLE_TIMEOUT cfg -> idle_crossed cfg now now = false.
Proof. intros H. unfold idle_crossed. apply Z.leb_gt. lia. Qed.

(** ** C5: a freshly seeded address is not idle *)




(** ** C4: the broadcast address and the registry *)


Lemma packet_handler_run now src dst s :
  packet_handler now (Some (src, dst)) s =
  ({| last_activity := dict_set dst now (dict_set src now (last_activity s));
      blocked_ips := blocked_ips s |}, [], Ok tt).
Proof. reflexivity. Qed.



(** ** C3: the boundary of the idle threshold *)

(** C3, amended. For an address other than 255.255.255.255 that is not
    blocked: with [last_seen] exactly [IDLE_TIMEOUT] seconds before the
    evaluation time the test of the second loop holds and the loop runs
    the enforcement, which starts with the idle line on the log and the
    notification request; with any later [last_seen] the test fails and
    the loop does nothing for the address. *)
Theorem idle_boundary_inclusive (cfg : Config) (env : Env) (now : Z)
    (ip : string) (s : State)
    (Hb : ip <> BROADCAST) (Hnb : ip ∉ blocked_ips s) :
  (idle_crossed cfg now (now - IDLE_TIMEOUT cfg * 1000000) = true
   /\ check_device cfg env now (ip, now - IDLE_TIMEOUT cfg * 1000000) s
      = enforce cfg env ip s
   /\ exists rest,
        trace (check_device cfg env now
                 (ip, now - IDLE_TIMEOUT cfg * 1000000) s)
        = ELog (MsgIdle ip (IDLE_TIMEOUT cfg))
          :: ENotify "Firewall gAmA" ip (IDLE_TIMEOUT cfg) :: rest)
  /\ (forall last,
        now - IDLE_TIMEOUT cfg * 1000000 < last ->
        idle_crossed cfg now last = false
        /\ check_device cfg env now (ip, last) s = (s, [], Ok tt)).
Proof.
  assert (Hc : idle_crossed cfg now (now - IDLE_TIMEOUT cfg * 1000000) = true).
  { unfold idle_crossed. apply Z.leb_le. lia. }
  split; [split; [exact Hc | split]|].
  - now apply check_device_enforces.
  - rewrite check_device_enforces, enforce_run by assumption.
    destruct (notification_notify env "Firewall gAmA" ip (IDLE_TIMEOUT cfg));
      eexists; reflexivity.
  - intros last Hl.
    assert (Hn : idle_crossed cfg now last = false).
    { unfold idle_crossed. apply Z.leb_gt. lia. }
    split; [exact Hn | now apply check_device_not_crossed].
Qed.

Lemma idle_boundary_inclusive_witness :
  idle_crossed source_config 10000000 (10000000 - 10 * 1000000) = true
  /\ idle_crossed source_config 10000000 1000 = false.
Proof.
  destruct (idle_boundary_inclusive source_config (calm_env Linux "")
              10000000 "10.0.0.5" initial_state) as [[H1 _] H2].
  - discriminate.
  - apply not_elem_of_empty.
  - split; [exact H1|]. apply H2. reflexivity.
Defined.

(** C3 as stated fails for the broadcast address: unblocked and idle for
    exactly the threshold, it is skipped. *)
Lemma broadcast_at_boundary_not_enforced :
  bool_decide ("255.255.255.255" ∈ blocked_ips
                 {| last_activity := [("255.255.255.255", 0)];
                    blocked_ips := ∅ |}) = false
  /\ idle_crossed source_config 10000000 (10000000 - 10 * 1000000) = true
  /\ trace (check_device source_config (calm_env Linux "") 10000000
              ("255.255.255.255", 10000000 - 10 * 1000000)
              {| last_activity := [("255.255.255.255", 0)];
                 blocked_ips := ∅ |})
     = [].
Proof. repeat split. Qed.

(** ** C1: at most one enforcement per address *)

Lemma check_loop_gated ip cfg env now items :
  keeps (gated ip) (for_each items (check_device cfg env now)).
Proof.
  apply keeps_for_each; [typeclasses eauto|].
  intros item _. apply check_device_gated.
Qed.

(** The evaluation loop over a registry in which [ip] has crossed the
    threshold, when it returns: one call of [block_ip ip], and [ip] is
    blocked. *)
Lemma check_loop_first_crossing cfg env now ip last items :
  ip <> BROADCAST -> AGGRESSIVE_MODE cfg = true ->
  idle_crossed cfg now last = true ->
  dict_get ip items = Some last ->
  forall s,
    ip ∉ blocked_ips s ->
    result (for_each items (check_device cfg env now) s) = Ok tt ->
    block_count ip (trace (for_each items (check_device cfg env now) s))
      = 1%nat
    /\ ip ∈ blocked_ips
         (final_state (for_each items (check_device cfg env now) s)).
Proof.
  intros Hb Ha Hi. induction items as [|[k v] items IH]; cbn [dict_get];
    [discriminate|].
  intros Hg s Hn. rewrite for_each_cons_run.
  destruct (decide (k = ip)) as [->|Hk].
  - injection Hg as ->.
    rewrite check_device_enforces by assumption.
    pose proof (enforce_returns cfg env ip s Ha) as He.
    destruct (enforce cfg env ip s) as [[s1 t1] [[]|e]]; cbn in He;
      [|discriminate].
    destruct (He eq_refl) as [Hc Hin].
    destruct (check_loop_gated ip cfg env now items s1 Hin) as [Hin' Hq].
    destruct (for_each items (check_device cfg env now) s1) as [[s2 t2] r].
    cbn in *. intros _. split; [|exact Hin'].
    rewrite block_count_app, Hc, (no_enforcement_block_count _ _ Hq).
    reflexivity.
  - destruct (check_device_untouched ip cfg env now k v Hk s) as [Hbl Hq].
    destruct (check_device cfg env now (k, v) s) as [[s1 t1] [[]|e]];
      cbn in Hbl, Hq; [|discriminate].
    assert (Hn1 : ip ∉ blocked_ips s1) by (intros H; apply Hn, Hbl, H).
    specialize (IH Hg s1 Hn1).
    destruct (for_each items (check_device cfg env now) s1) as [[s2 t2] r].
    cbn in *. intros Hr. destruct (IH Hr) as [Hc Hin]. split; [|exact Hin].
    rewrite block_count_app, (no_enforcement_block_count _ _ Hq), Hc.
    reflexivity.
Qed.

(** C1, amended. For an address other than 255.255.255.255, in
    aggressive mode: an evaluation cycle that finds the address in the
    registry with an idle duration of at least the threshold and not in
    the blocked set, and that runs to its end, calls [block_ip] for the
    address exactly once and leaves it in the blocked set; after that, no
    run of frames and cycles, however long and whatever fails in it, calls
    [block_ip] for the address again or does anything else of its
    enforcement. *)
Theorem block_fires_once (cfg : Config) (env : Env) (now : Z) (s : State)
    (ip : string) (last : Z)
    (Hb : ip <> BROADCAST)
    (Ha : AGGRESSIVE_MODE cfg = true)
    (Hreg : dict_get ip (last_activity s) = Some last)
    (Hidle : idle_crossed cfg now last = true)
    (Hnb : ip ∉ blocked_ips s)
    (Hret : result (idle_checker_cycle cfg env now s) = Ok tt) :
  block_count ip (trace (idle_checker_cycle cfg env now s)) = 1%nat
  /\ ip ∈ blocked_ips (final_state (idle_checker_cycle cfg env now s))
  /\ forall inputs,
       block_count ip
         (trace (run_inputs cfg inputs
                   (final_state (idle_checker_cycle cfg env now s))))
       = 0%nat
       /\ no_enforcement_of ip
            (trace (run_inputs cfg inputs
                      (final_state (idle_checker_cycle cfg env now s)))).
Proof.
  destruct (idle_checker_cycle_run cfg env now s)
    as (ips & t0 & _ & Ht0 & Hrun).
  rewrite Hrun in *. clear Hrun.
  set (d1 := seed_registry now ips (last_activity s)) in *.
  set (s1 := {| last_activity := d1; blocked_ips := blocked_ips s |}) in *.
  assert (Hg : dict_get ip d1 = Some last)
    by now apply seed_registry_present.
  pose proof (check_loop_first_crossing cfg env now ip last d1
                Hb Ha Hidle Hg s1 Hnb) as Hloop.
  destruct (for_each d1 (check_device cfg env now) s1) as [[s2 t2] r].
  cbn in *. destruct (Hloop Hret) as [Hc Hin].
  split; [|split; [exact Hin|]].
  - now rewrite block_count_app, (no_enforcement_block_count _ _ (Ht0 ip)), Hc.
  - intros inputs.
    destruct (run_inputs_gated ip cfg inputs s2 Hin) as [_ Hq].
    split; [now apply no_enforcement_block_count | exact Hq].
Qed.

Lemma block_fires_once_witness :
  block_count "10.0.0.5"
    (trace (idle_checker_cycle source_config (calm_env Linux "") 10000000
              idle_device_state))
  = 1%nat.
Proof.
  apply (block_fires_once source_config (calm_env Linux "") 10000000
           idle_device_state "10.0.0.5" 0).
  - discriminate.
  - reflexivity.
  - reflexivity.
  - reflexivity.
  - apply not_elem_of_empty.
  - reflexivity.
Defined.

(** C1 as stated fails for the broadcast address: in the registry, idle
    for the threshold, not in the blocked set, and the cycle, which runs to
    its end, calls [block_ip] for it not once but never.  It also fails
    for a unicast address when the cycle does not reach the block (the
    notification raises) and in safe mode. *)
Lemma broadcast_crossing_never_blocked :
  (dict_get "255.255.255.255" (last_activity broadcast_seen_state) = Some 0
   /\ idle_crossed source_config 10000000 0 = true
   /\ bool_decide ("255.255.255.255" ∈ blocked_ips broadcast_seen_state)
      = false
   /\ result (idle_checker_cycle source_config (calm_env Linux "") 10000000
                broadcast_seen_state) = Ok tt
   /\ block_count "255.255.255.255"
        (trace (idle_checker_cycle source_config (calm_env Linux "") 10000000
                  broadcast_seen_state))
      = 0%nat)
  /\ block_count "10.0.0.5"
       (trace (idle_checker_cycle source_config notify_down_env 10000000
                 idle_device_state))
     = 0%nat
  /\ block_count "10.0.0.5"
       (trace (idle_checker_cycle safe_config (calm_env Linux "") 10000000
                 idle_device_state))
     = 0%nat.
Proof. repeat split. Qed.

(** ** C6: a failed firewall command *)



(** ** C7: which failures an enforcement survives *)

(** A failing sound or a failing firewall command does not stop an
    enforcement: with the notification delivered it returns, and in
    aggressive mode [block_ip] has been called. *)
Lemma sound_and_firewall_failures_are_contained cfg env ip s :
  notification_notify env "Firewall gAmA" ip (IDLE_TIMEOUT cfg) = Ok tt ->
  result (enforce cfg env ip s) = Ok tt
  /\ (AGGRESSIVE_MODE cfg = true ->
      block_count ip (trace (enforce cfg env ip s)) = 1%nat).
Proof.
  intros Hn.
  assert (Hr : result (enforce cfg env ip s) = Ok tt)
    by (rewrite enforce_run, Hn; reflexivity).
  split; [exact Hr|]. intros Ha.
  now destruct (enforce_returns cfg env ip s Ha Hr).
Qed.

(** C7. At the failing input: the notification raises, [notify] has no
    handler, the exception leaves [idle_checker]; [block_ip] is not called,
    the address is not put into the blocked set, and the second idle
    address of the registry is never looked at. *)
Theorem notification_failure_skips_block :
  trace (idle_checker_cycle source_config notify_down_env 10000000
           {| last_activity := [("10.0.0.5", 0); ("10.0.0.7", 0)];
              blocked_ips := ∅ |})
  = [ECheckOutput ["arp"; "-n"];
     ELog (MsgIdle "10.0.0.5" 10);
     ENotify "Firewall gAmA" "10.0.0.5" 10]
  /\ result (idle_checker_cycle source_config notify_down_env 10000000
               {| last_activity := [("10.0.0.5", 0); ("10.0.0.7", 0)];
                  blocked_ips := ∅ |})
     = Raise "No usable implementation found!"
  /\ block_count "10.0.0.5"
       (trace (idle_checker_cycle source_config notify_down_env 10000000
                 {| last_activity := [("10.0.0.5", 0); ("10.0.0.7", 0)];
                    blocked_ips := ∅ |}))
     = 0%nat
  /\ bool_decide
       ("10.0.0.5" ∈
        blocked_ips
          (final_state
             (idle_checker_cycle source_config notify_down_env 10000000
                {| last_activity := [("10.0.0.5", 0); ("10.0.0.7", 0)];
                   blocked_ips := ∅ |})))
     = false.
Proof. repeat split. Qed.

(** * Further properties of the monitor *)

(** ** The registry under frames *)

Lemma keys_dict_set k v d :
  keys (dict_set k v d)
  = if dict_mem k d then keys d else keys d ++ [k].
Proof.
  unfold dict_mem, keys. induction d as [|[k' v'] d IH]; cbn; [reflexivity|].
  destruct (decide (k' = k)) as [->|Hk]; cbn; [reflexivity|].
  rewrite IH. now destruct (dict_get k d).
Qed.

Lemma dict_get_None_keys k d : dict_get k d = None <-> k ∉ keys d.
Proof.
  induction d as [|[k' v'] d IH]; cbn.
  - split; [intros _ H; inversion H | reflexivity].
  - destruct (decide (k' = k)) as [->|Hk].
    + split; [discriminate | intros H; exfalso; apply H; left].
    + rewrite IH, not_elem_of_cons.
      split; [intros H; split; [congruence | exact H] | tauto].
Qed.

Lemma NoDup_keys_dict_set k v d : NoDup (keys d) -> NoDup (keys (dict_set k v d)).
Proof.
  intros H. rewrite keys_dict_set. unfold dict_mem.
  destruct (dict_get k d) eqn:Hg; [exact H|].
  apply NoDup_app. split; [exact H|]. split.
  - intros x Hx Hk. apply list_elem_of_singleton in Hk as ->.
    now apply dict_get_None_keys in Hg.
  - apply NoDup_singleton.
Qed.

(** With one record per key, the record found by the lookup is the only
    one of its key. *)
Lemma unique_record k v v' d :
  NoDup (keys d) -> dict_get k d = Some v -> (k, v') ∈ d -> v' = v.
Proof.
  induction d as [|[k0 v0] d IH]; cbn; [discriminate|].
  intros Hnd Hg Hin. apply NoDup_cons in Hnd as [Hk0 Hnd].
  destruct (decide (k0 = k)) as [->|Hk].
  - injection Hg as <-.
    apply elem_of_cons in Hin as [[= ->]|Hin]; [reflexivity|].
    exfalso. apply Hk0. apply (list_elem_of_fmap_2 fst) in Hin. exact Hin.
  - apply elem_of_cons in Hin as [[= <- <-]|Hin]; [congruence|]. auto.
Qed.

(** X1. A frame without an IP layer changes nothing.  A frame with one
    sets the [last_seen] of its source and of its destination to the time
    of the frame and leaves every other record as it is; the handler
    never raises, logs nothing and does not touch the blocked set, whether
    the addresses are blocked or not. *)
Theorem packet_handler_frame (now : Z) (pkt : Packet) (s : State) (k : string) :
  result (packet_handler now pkt s) = Ok tt
  /\ trace (packet_handler now pkt s) = []
  /\ blocked_ips (final_state (packet_handler now pkt s)) = blocked_ips s
  /\ dict_get k (last_activity (final_state (packet_handler now pkt s)))
     = after_frame now pkt k (dict_get k (last_activity s))
  /\ (pkt = None -> final_state (packet_handler now pkt s) = s).
Proof.
  destruct pkt as [[src dst]|]; [|repeat split].
  rewrite packet_handler_run. cbn.
  split; [reflexivity|]. split; [reflexivity|]. split; [reflexivity|].
  split; [|discriminate].
  destruct (decide (k = dst)) as [->|Hd].
  - rewrite dict_get_set_same, (bool_decide_eq_true_2 (dst = dst)) by reflexivity.
    now rewrite orb_true_r.
  - rewrite dict_get_set_other, (bool_decide_eq_false_2 (k = dst)),
      orb_false_r by congruence.
    destruct (decide (k = src)) as [->|Hs].
    + now rewrite dict_get_set_same, bool_decide_eq_true_2.
    + now rewrite dict_get_set_other, bool_decide_eq_false_2 by congruence.
Qed.

(** ** The registry along a run *)

#[global] Instance unique_keys_closed : Closed unique_keys.
Proof.
  split; unfold unique_keys; [tauto|].
  intros s s1 s2 _ _ H1 H2 H. auto.
Qed.

#[global] Instance registry_grows_closed : Closed registry_grows.
Proof.
  split; unfold registry_grows; [reflexivity|].
  intros s s1 s2 _ _ H1 H2. now transitivity (keys (last_activity s1)).
Qed.

Lemma unique_keys_event ev s : unique_keys s s [ev].
Proof. intros H. exact H. Qed.

Lemma registry_grows_event ev s : registry_grows s s [ev].
Proof. unfold registry_grows. reflexivity. Qed.

Lemma set_last_activity_unique_keys k v :
  keeps unique_keys (set_last_activity k v).
Proof. intros s H. cbn. now apply NoDup_keys_dict_set. Qed.

Lemma set_last_activity_registry_grows k v :
  keeps registry_grows (set_last_activity k v).
Proof.
  intros s. unfold registry_grows. cbn. rewrite keys_dict_set.
  destruct (dict_mem k (last_activity s)); [reflexivity|].
  now apply prefix_app_r.
Qed.

Lemma blocked_ips_add_unique_keys k : keeps unique_keys (blocked_ips_add k).
Proof. intros s H. exact H. Qed.

Lemma blocked_ips_add_registry_grows k :
  keeps registry_grows (blocked_ips_add k).
Proof. intros s. unfold registry_grows. reflexivity. Qed.

#[global] Hint Resolve unique_keys_event registry_grows_event
  set_last_activity_unique_keys set_last_activity_registry_grows
  blocked_ips_add_unique_keys blocked_ips_add_registry_grows : keeps.

Lemma run_inputs_unique_keys cfg inputs : keeps unique_keys (run_inputs cfg inputs).
Proof. unfold_monitor. keeps_auto. Qed.

Lemma run_inputs_registry_grows cfg inputs :
  keeps registry_grows (run_inputs cfg inputs).
Proof. unfold_monitor. keeps_auto. Qed.

(** X2. The registry holds one record per address: a registry without a
    repeated key has none after any run of frames and cycles, however the
    run ends. *)
Theorem registry_keys_stay_unique (cfg : Config) (inputs : list Input)
    (s : State) (Hs : NoDup (keys (last_activity s))) :
  NoDup (keys (last_activity (final_state (run_inputs cfg inputs s)))).
Proof. now apply run_inputs_unique_keys. Qed.

Lemma registry_keys_stay_unique_witness :
  NoDup
    (keys
       (last_activity
          (final_state
             (run_inputs source_config
                [Frame 0 (Some ("10.0.0.5", "10.0.0.1"));
                 Frame 1000000 (Some ("10.0.0.1", "10.0.0.5"));
                 Cycle 2000000 (calm_env Linux "10.0.0.5 ether aa C eth0")]
                initial_state)))).
Proof.
  apply (registry_keys_stay_unique source_config _ initial_state).
  apply NoDup_nil_2.
Defined.

(** X3. No record is ever deleted or moved: after any run the keys the
    registry had are still its first keys, in the same order, and new
    keys follow them; so an address that has a record keeps one. *)
Theorem registry_only_grows (cfg : Config) (inputs : list Input) (s : State) :
  keys (last_activity s)
    `prefix_of` keys (last_activity (final_state (run_inputs cfg inputs s)))
  /\ forall k,
       dict_mem k (last_activity s) = true ->
       dict_mem k (last_activity (final_state (run_inputs cfg inputs s)))
       = true.
Proof.
  pose proof (run_inputs_registry_grows cfg inputs s) as H.
  unfold registry_grows in H. split; [exact H|].
  intros k. unfold dict_mem.
  destruct (dict_get k (last_activity s)) eqn:Hg; [intros _|discriminate].
  destruct (dict_get k (last_activity (final_state (run_inputs cfg inputs s))))
    eqn:Hg'; [reflexivity|].
  apply dict_get_None_keys in Hg'. exfalso. apply Hg'.
  destruct H as [new ->]. apply elem_of_app. left.
  destruct (decide (k ∈ keys (last_activity s))) as [Hin|Hn]; [exact Hin|].
  apply dict_get_None_keys in Hn. congruence.
Qed.

(** ** One record under the second loop *)

Lemma check_device_run cfg env now item s :
  check_device cfg env now item s
  = if due cfg now s item then enforce cfg env item.1 s else (s, [], Ok tt).
Proof.
  destruct item as [k v]. unfold check_device, due. cbn [fst snd].
  destruct (decide (k = BROADCAST)) as [Hb|Hb].
  - now rewrite (bool_decide_eq_true_2 _ Hb).
  - rewrite (bool_decide_eq_false_2 _ Hb), bind_run. cbn.
    destruct (idle_crossed cfg now v && negb (bool_decide (k ∈ blocked_ips s)));
      [|reflexivity].
    now destruct (enforce cfg env k s) as [[s1 t1] [[]|e]].
Qed.

Lemma due_spec cfg now s k v :
  due cfg now s (k, v) = true
  <-> k <> BROADCAST /\ idle_crossed cfg now v = true /\ k ∉ blocked_ips s.
Proof.
  unfold due. cbn. rewrite !andb_true_iff, !negb_true_iff, !bool_decide_eq_false.
  tauto.
Qed.

(** A run is made of the four pieces below: what all of them keep, every
    cycle and every run keeps. *)
Lemma idle_checker_cycle_keeps R `{!Closed R} cfg env now :
  (forall item, keeps R (check_device cfg env now item)) ->
  keeps R (discover_devices env) ->
  (forall k, keeps R (seed_device now k)) ->
  keeps R (idle_checker_cycle cfg env now).
Proof.
  intros Hc Hd Hs. unfold idle_checker_cycle, seed_and_check.
  keeps_split; auto.
Qed.

Lemma run_inputs_keeps R `{!Closed R} cfg inputs :
  (forall env now item, keeps R (check_device cfg env now item)) ->
  (forall env, keeps R (discover_devices env)) ->
  (forall now k, keeps R (seed_device now k)) ->
  (forall now pkt, keeps R (packet_handler now pkt)) ->
  keeps R (run_inputs cfg inputs).
Proof.
  intros Hc Hd Hs Hp. unfold run_inputs, step.
  apply keeps_for_each; [assumption|]. intros [now pkt|now env] _.
  - apply Hp.
  - apply idle_checker_cycle_keeps; auto.
Qed.

(** ** At most one block per address *)

#[global] Instance once_closed ip : Closed (once ip).
Proof.
  split; unfold once.
  - intros s. cbn. repeat split; auto; lia.
  - intros s s1 s2 t1 t2 (A1 & B1 & C1) (A2 & B2 & C2).
    rewrite block_count_app.
    assert (M : ip ∈ blocked_ips s1 -> ip ∈ blocked_ips s2 /\ block_count ip t2 = 0%nat)
      by exact A2.
    split; [|split].
    + intros H. destruct (A1 H) as [H1 Z1]. destruct (A2 H1) as [H2 Z2].
      split; [exact H2 | lia].
    + destruct (block_count ip t1) as [|n] eqn:E1; [lia|].
      destruct (M (C1 ltac:(lia))) as [_ Z2]. lia.
    + intros H. destruct (block_count ip t1) as [|n] eqn:E1.
      * apply C2. lia.
      * now destruct (M (C1 ltac:(lia))).
Qed.






(** ** No address is blocked unannounced *)

#[global] Instance announced_closed cfg ip : Closed (announced cfg ip).
Proof.
  split; unfold announced.
  - intros s H. now left.
  - intros s s1 s2 t1 t2 H1 H2 H.
    destruct (H2 H) as [H'|[Ha Hb]].
    + destruct (H1 H') as [H''|[Ha Hb]]; [now left|].
      right. split; apply elem_of_app; now left.
    + right. split; apply elem_of_app; now right.
Qed.

Lemma untouched_announced {A} cfg ip (m : M A) :
  keeps (untouched ip) m -> keeps (announced cfg ip) m.
Proof. intros H s Hin. left. now apply (H s). Qed.

Lemma check_device_announced cfg ip env now item :
  keeps (announced cfg ip) (check_device cfg env now item).
Proof.
  destruct item as [k v]. destruct (decide (k = ip)) as [->|Hk];
    [|now apply untouched_announced, check_device_untouched].
  intros s. rewrite check_device_run.
  destruct (due cfg now s (ip, v)); [|apply closed_refl].
  cbn [fst]. rewrite enforce_run.
  destruct (notification_notify env "Firewall gAmA" ip (IDLE_TIMEOUT cfg));
    unfold announced, final_state, trace; cbn [fst snd].
  - intros _. right. split; [left | right; left].
  - intros H. now left.
Qed.

Lemma run_inputs_announced cfg ip inputs :
  keeps (announced cfg ip) (run_inputs cfg inputs).
Proof.
  apply run_inputs_keeps; [typeclasses eauto|..]; intros.
  - apply check_device_announced.
  - apply untouched_announced, discover_devices_untouched.
  - apply untouched_announced, seed_device_untouched.
  - apply untouched_announced, packet_handler_untouched.
Qed.

(** X5. An address enters the blocked set only through an enforcement:
    if it is in the blocked set after a run and was not before, the run
    has logged its idle line and requested its notification. *)
Theorem blocked_only_after_announcement (cfg : Config) (inputs : list Input)
    (s : State) (ip : string)
    (Hafter : ip ∈ blocked_ips (final_state (run_inputs cfg inputs s)))
    (Hbefore : ip ∉ blocked_ips s) :
  ELog (MsgIdle ip (IDLE_TIMEOUT cfg)) ∈ trace (run_inputs cfg inputs s)
  /\ ENotify "Firewall gAmA" ip (IDLE_TIMEOUT cfg)
     ∈ trace (run_inputs cfg inputs s).
Proof.
  destruct (run_inputs_announced cfg ip inputs s Hafter) as [H|H];
    [contradiction | exact H].
Qed.

Lemma blocked_only_after_announcement_witness :
  ELog (MsgIdle "10.0.0.5" 10)
  ∈ trace (run_inputs source_config [Cycle 10000000 (calm_env Linux "")]
             idle_device_state).
Proof.
  apply (blocked_only_after_announcement source_config
           [Cycle 10000000 (calm_env Linux "")] idle_device_state "10.0.0.5").
  - vm_compute. reflexivity.
  - apply not_elem_of_empty.
Defined.

(** ** Safe mode *)

#[global] Instance firewall_free_closed : Closed firewall_free.
Proof.
  split; unfold firewall_free.
  - intros _. constructor.
  - intros _ _ _ t1 t2 H1 H2. apply Forall_app. now split.
Qed.

Lemma firewall_free_event ev :
  touches_firewall ev = false -> forall s, firewall_free s s [ev].
Proof. intros H s. repeat constructor. exact H. Qed.

Lemma set_last_activity_firewall_free k v :
  keeps firewall_free (set_last_activity k v).
Proof. intros s. constructor. Qed.

#[global] Hint Resolve firewall_free_event set_last_activity_firewall_free
  : keeps.

Lemma sound_trace_firewall_free env :
  Forall (fun ev => touches_firewall ev = false) (sound_trace env).
Proof.
  unfold sound_trace. destruct (sound_file_exists env); [|constructor].
  destruct (playsound env); repeat constructor.
Qed.

Lemma check_device_firewall_free cfg env now item :
  AGGRESSIVE_MODE cfg = false ->
  keeps firewall_free (check_device cfg env now item).
Proof.
  intros Ha s. rewrite check_device_run.
  destruct (due cfg now s item); [|constructor].
  rewrite enforce_run, Ha.
  destruct (notification_notify env _ _ _); unfold firewall_free, trace;
    cbn [fst snd]; repeat (constructor; [reflexivity|]); [|constructor].
  rewrite app_nil_r. apply sound_trace_firewall_free.
Qed.

Lemma run_inputs_firewall_free cfg inputs :
  AGGRESSIVE_MODE cfg = false -> keeps firewall_free (run_inputs cfg inputs).
Proof.
  intros Ha. apply run_inputs_keeps; [typeclasses eauto|..]; intros.
  - now apply check_device_firewall_free.
  - unfold_monitor. keeps_auto.
  - unfold_monitor. keeps_auto.
  - unfold_monitor. keeps_auto.
Qed.

(** X6. In safe mode the firewall is never touched: no run calls
    [block_ip] or runs a command, while an enforcement that returns still
    puts its address into the blocked set. *)
Theorem safe_mode_never_touches_firewall (cfg : Config)
    (Ha : AGGRESSIVE_MODE cfg = false) :
  (forall inputs s,
     Forall (fun ev => touches_firewall ev = false)
       (trace (run_inputs cfg inputs s)))
  /\ (forall env ip s,
        result (enforce cfg env ip s) = Ok tt ->
        ip ∈ blocked_ips (final_state (enforce cfg env ip s))).
Proof.
  split.
  - intros inputs s. now apply run_inputs_firewall_free.
  - intros env ip s. rewrite enforce_run.
    destruct (notification_notify env _ _ _); [intros _|discriminate].
    cbn. apply elem_of_union. left. now apply elem_of_singleton.
Qed.

Lemma safe_mode_never_touches_firewall_witness :
  Forall (fun ev => touches_firewall ev = false)
    (trace (run_inputs safe_config [Cycle 10000000 (calm_env Linux "")]
              idle_device_state)).
Proof.
  apply (safe_mode_never_touches_firewall safe_config). reflexivity.
Defined.

(** ** Which addresses a cycle enforces *)

Lemma keys_app d1 d2 : keys (d1 ++ d2) = keys d1 ++ keys d2.
Proof. unfold keys. apply map_app. Qed.

Lemma seed_registry_elem now ips k v d :
  (k, v) ∈ seed_registry now ips d ->
  (k, v) ∈ d \/ (v = now /\ dict_get k d = None).
Proof.
  revert d. induction ips as [|ip ips IH]; intros d H; cbn in H; [now left|].
  destruct (seeds ip d) eqn:Hs; [|now apply IH].
  unfold seeds in Hs. apply andb_true_iff in Hs as [_ Hs].
  unfold dict_mem in Hs. destruct (dict_get ip d) eqn:Hg; [discriminate|].
  rewrite (dict_set_absent _ _ _ Hg) in H.
  destruct (IH _ H) as [Hin|[-> Hn]].
  - apply elem_of_app in Hin as [Hin|Hin]; [now left|].
    apply list_elem_of_singleton in Hin as [= -> ->]. now right.
  - right. split; [reflexivity|].
    apply dict_get_None_keys. apply dict_get_None_keys in Hn.
    rewrite keys_app in Hn. intros Hk. apply Hn, elem_of_app. now left.
Qed.

(** A cycle does nothing about an address whose records are all below
    the threshold, a record seeded in this cycle included. *)
Lemma idle_checker_cycle_quiet cfg env now s ip :
  (forall v, (ip, v) ∈ last_activity s -> idle_crossed cfg now v = false) ->
  (dict_get ip (last_activity s) = None -> idle_crossed cfg now now = false) ->
  untouched ip s (final_state (idle_checker_cycle cfg env now s))
    (trace (idle_checker_cycle cfg env now s)).
Proof.
  intros Hold Hnew.
  destruct (idle_checker_cycle_run cfg env now s) as (ips & t0 & _ & Ht0 & ->).
  set (d1 := seed_registry now ips (last_activity s)).
  set (s1 := {| last_activity := d1; blocked_ips := blocked_ips s |}).
  assert (Hq : forall v, (ip, v) ∈ d1 -> idle_crossed cfg now v = false).
  { intros v Hv. destruct (seed_registry_elem _ _ _ _ _ Hv) as [Hin|[-> Hn]];
      auto. }
  pose proof (check_loop_quiet cfg env now ip d1 Hq s1) as [Hbl Htr].
  destruct (for_each d1 (check_device cfg env now) s1) as [[s2 t2] r].
  cbn in *. split; [exact Hbl|].
  apply Forall_app. split; [apply Ht0 | exact Htr].
Qed.

(** X7. A cycle never enforces an active address: for a positive
    threshold, an address all of whose records are younger than the
    threshold (or that has none) gets no idle line, no notification and no
    block in the cycle, and its blocked status is what it was. *)
Theorem active_device_not_enforced (cfg : Config) (env : Env) (now : Z)
    (s : State) (ip : string)
    (HT : 0 < IDLE_TIMEOUT cfg)
    (Hactive : forall v,
       (ip, v) ∈ last_activity s -> now - v < IDLE_TIMEOUT cfg * 1000000) :
  no_enforcement_of ip (trace (idle_checker_cycle cfg env now s))
  /\ (ip ∈ blocked_ips (final_state (idle_checker_cycle cfg env now s))
      <-> ip ∈ blocked_ips s).
Proof.
  destruct (idle_checker_cycle_quiet cfg env now s ip) as [Hb Ht].
  - intros v Hv. unfold idle_crossed. apply Z.leb_gt. now apply Hactive.
  - intros _. now apply idle_crossed_now.
  - split; assumption.
Qed.

Lemma active_device_not_enforced_witness :
  no_enforcement_of "10.0.0.5"
    (trace (idle_checker_cycle source_config (calm_env Linux "") 10000000
              {| last_activity := [("10.0.0.5", 3000000); ("10.0.0.7", 0)];
                 blocked_ips := ∅ |})).
Proof.
  apply (active_device_not_enforced source_config (calm_env Linux "") 10000000
           {| last_activity := [("10.0.0.5", 3000000); ("10.0.0.7", 0)];
              blocked_ips := ∅ |} "10.0.0.5").
  - reflexivity.
  - intros v Hv. cbn in Hv.
    apply elem_of_cons in Hv as [[= ->]|Hv]; [reflexivity|].
    apply list_elem_of_singleton in Hv. discriminate.
Defined.

(** X8. Traffic resets the idle clock: in a registry with one record per
    address, after a frame from or to an address, a cycle that runs less
    than the threshold after the frame does nothing about that address,
    however long it had been silent before. *)
Theorem traffic_resets_idle_clock (cfg : Config) (env : Env) (t now : Z)
    (src dst ip : string) (s : State)
    (Hs : NoDup (keys (last_activity s)))
    (Hip : ip = src \/ ip = dst)
    (Hrecent : now - t < IDLE_TIMEOUT cfg * 1000000) :
  no_enforcement_of ip
    (trace (idle_checker_cycle cfg env now
              (final_state (packet_handler t (Some (src, dst)) s))))
  /\ (ip ∈ blocked_ips
        (final_state
           (idle_checker_cycle cfg env now
              (final_state (packet_handler t (Some (src, dst)) s))))
      <-> ip ∈ blocked_ips s).
Proof.
  rewrite packet_handler_run. cbn [final_state fst].
  set (d := dict_set dst t (dict_set src t (last_activity s))).
  assert (Hnd : NoDup (keys d)) by now do 2 apply NoDup_keys_dict_set.
  assert (Hg : dict_get ip d = Some t).
  { unfold d. destruct Hip as [->| ->]; [|apply dict_get_set_same].
    destruct (decide (src = dst)) as [->|Hne]; [apply dict_get_set_same|].
    rewrite dict_get_set_other by congruence. apply dict_get_set_same. }
  destruct (idle_checker_cycle_quiet cfg env now
              {| last_activity := d; blocked_ips := blocked_ips s |} ip)
    as [Hb Ht].
  - intros v Hv. cbn in Hv. rewrite (unique_record _ _ _ _ Hnd Hg Hv).
    unfold idle_crossed. apply Z.leb_gt. exact Hrecent.
  - cbn. congruence.
  - split; assumption.
Qed.

Lemma traffic_resets_idle_clock_witness :
  no_enforcement_of "10.0.0.5"
    (trace (idle_checker_cycle source_config (calm_env Linux "") 10000000
              (final_state
                 (packet_handler 3000000 (Some ("10.0.0.5", "10.0.0.1"))
                    idle_device_state)))).
Proof.
  apply (traffic_resets_idle_clock source_config (calm_env Linux "")
           3000000 10000000 "10.0.0.5" "10.0.0.1" "10.0.0.5"
           idle_device_state).
  - apply NoDup_singleton.
  - now left.
  - reflexivity.
Defined.

(** ** How a cycle ends *)

Lemma check_loop_returns cfg env now items s :
  result (for_each items (check_device cfg env now) s) = Ok tt ->
  forall k v,
    (k, v) ∈ items -> k <> BROADCAST -> idle_crossed cfg now v = true ->
    k ∈ blocked_ips (final_state (for_each items (check_device cfg env now) s)).
Proof.
  revert s. induction items as [|[k0 v0] items IH]; intros s Hr k v Hin Hb Hi.
  - inversion Hin.
  - rewrite for_each_cons_run in *.
    destruct (check_device cfg env now (k0, v0) s) as [[s1 t1] [[]|e]] eqn:Hc;
      [|discriminate].
    rewrite check_device_run in Hc.
    pose proof (check_loop_stays_blocked k cfg env now items s1) as Hst.
    specialize (IH s1).
    destruct (for_each items (check_device cfg env now) s1) as [[s2 t2] r].
    unfold stays_blocked, final_state, result in *. cbn [fst snd] in *.
    apply elem_of_cons in Hin as [[= -> ->]|Hin]; [|eauto].
    apply Hst.
    destruct (due cfg now s (k0, v0)) eqn:Hdue.
    + cbn [fst] in Hc. rewrite enforce_run in Hc.
      destruct (notification_notify env _ _ _); [|discriminate].
      injection Hc as <- _. cbn. apply elem_of_union. left.
      now apply elem_of_singleton.
    + injection Hc as <- _.
      destruct (decide (k0 ∈ blocked_ips s)) as [H|H]; [exact H|].
      assert (due cfg now s (k0, v0) = true) by now apply due_spec.
      congruence.
Qed.

(** X10. A cycle that returns leaves no idle address unblocked: every
    record of the registry, seeded ones included, whose idle duration has
    reached the threshold and whose address is not the broadcast address
    has its address in the blocked set, in aggressive and in safe mode
    alike. *)
Theorem returning_cycle_blocks_all_idle (cfg : Config) (env : Env) (now : Z)
    (s : State) (ip : string) (v : Z)
    (Hret : result (idle_checker_cycle cfg env now s) = Ok tt)
    (Hrec : (ip, v) ∈ last_activity
                        (final_state (idle_checker_cycle cfg env now s)))
    (Hb : ip <> BROADCAST)
    (Hidle : idle_crossed cfg now v = true) :
  ip ∈ blocked_ips (final_state (idle_checker_cycle cfg env now s)).
Proof.
  destruct (idle_checker_cycle_run cfg env now s) as (ips & t0 & _ & _ & Hrun).
  rewrite Hrun in *. clear Hrun.
  set (d1 := seed_registry now ips (last_activity s)) in *.
  set (s1 := {| last_activity := d1; blocked_ips := blocked_ips s |}) in *.
  pose proof (check_loop_same_registry cfg env now d1 s1) as Hreg.
  pose proof (check_loop_returns cfg env now d1 s1) as Hall.
  destruct (for_each d1 (check_device cfg env now) s1) as [[s2 t2] r].
  unfold same_registry in Hreg. cbn in *. rewrite Hreg in Hrec. eauto.
Qed.

Lemma returning_cycle_blocks_all_idle_witness :
  "10.0.0.5"
  ∈ blocked_ips
      (final_state
         (idle_checker_cycle safe_config firewall_down_env 10000000
            idle_device_state)).
Proof.
  apply (returning_cycle_blocks_all_idle safe_config firewall_down_env 10000000
           idle_device_state "10.0.0.5" 0).
  - reflexivity.
  - left.
  - discriminate.
  - reflexivity.
Defined.

(** ** What a cycle does to the registry *)

Lemma seed_registry_appends now ips d :
  exists new,
    seed_registry now ips d = d ++ new
    /\ Forall (fun item =>
                 item.2 = now /\ item.1 ∈ ips /\ item.1 <> BROADCAST
                 /\ dict_get item.1 d = None) new.
Proof.
  revert d. induction ips as [|ip ips IH]; intros d; cbn.
  - exists []. split; [now rewrite app_nil_r | constructor].
  - destruct (seeds ip d) eqn:Hs.
    + unfold seeds in Hs. apply andb_true_iff in Hs as [Hb Hs].
      apply negb_true_iff, bool_decide_eq_false in Hb.
      unfold dict_mem in Hs. destruct (dict_get ip d) eqn:Hg; [discriminate|].
      rewrite (dict_set_absent _ _ _ Hg).
      destruct (IH (d ++ [(ip, now)])) as (new & -> & Hnew).
      exists ((ip, now) :: new). split; [now rewrite <- app_assoc|].
      constructor; [cbn; repeat split; [left | assumption..]|].
      eapply Forall_impl; [exact Hnew|]. intros [k v] (? & ? & ? & Hn). cbn in *.
      repeat split; [assumption | now right | assumption|].
      apply dict_get_None_keys. apply dict_get_None_keys in Hn.
      rewrite keys_app in Hn. intros Hk. apply Hn, elem_of_app. now left.
    + destruct (IH d) as (new & -> & Hnew). exists new. split; [reflexivity|].
      eapply Forall_impl; [exact Hnew|]. intros [k v] (? & ? & ? & ?). cbn in *.
      repeat split; [assumption | now right | assumption..].
Qed.

(** X11. A cycle changes the registry only by appending: when it ends,
    normally or not, the registry is the one it found followed by new
    records; each new record belongs to an address that the query
    returned, that is not the broadcast address and that had no record,
    and carries the time of the cycle.  Blocking an address neither
    removes nor changes its record. *)
Theorem cycle_appends_seeded_records (cfg : Config) (env : Env) (now : Z)
    (s : State) :
  exists ips new,
    result (discover_devices env s) = Ok ips
    /\ last_activity (final_state (idle_checker_cycle cfg env now s))
       = last_activity s ++ new
    /\ Forall (fun item =>
                 item.2 = now /\ item.1 ∈ ips /\ item.1 <> BROADCAST
                 /\ dict_get item.1 (last_activity s) = None) new.
Proof.
  destruct (idle_checker_cycle_run cfg env now s) as (ips & t0 & Hd & _ & ->).
  destruct (seed_registry_appends now ips (last_activity s)) as (new & Hs & Hn).
  exists ips, new. split; [exact Hd|]. split; [|exact Hn].
  set (d1 := seed_registry now ips (last_activity s)) in *.
  set (s1 := {| last_activity := d1; blocked_ips := blocked_ips s |}).
  pose proof (check_loop_same_registry cfg env now d1 s1) as Hreg.
  destruct (for_each d1 (check_device cfg env now) s1) as [[s2 t2] r].
  unfold same_registry in Hreg. cbn in *. now rewrite Hreg.
Qed.

(** * The parsing of the ARP table *)

(** ** [str.split] and [str.strip] *)

Lemma of_list_of_string s :
  String.string_of_list_ascii (String.list_ascii_of_string s) = s.
Proof. apply String.string_of_list_ascii_of_string. Qed.

Lemma split_aux_spaces sp acc :
  forallb PyStr.is_space sp = true ->
  PyStr.split_aux acc (String.string_of_list_ascii sp)
  = PyStr.split_aux acc "".
Proof.
  revert acc. induction sp as [|c sp IH]; intros acc H; [reflexivity|].
  cbn in H. apply andb_true_iff in H as [Hc Hsp]. cbn. rewrite Hc.
  destruct acc; rewrite (IH [] Hsp); reflexivity.
Qed.

Lemma split_aux_trailing l sp acc :
  forallb PyStr.is_space sp = true ->
  PyStr.split_aux acc (String.string_of_list_ascii (l ++ sp))
  = PyStr.split_aux acc (String.string_of_list_ascii l).
Proof.
  intros Hsp. revert acc. induction l as [|c l IH]; intros acc.
  - cbn [app]. now apply split_aux_spaces.
  - cbn. destruct (PyStr.is_space c); [destruct acc|]; now rewrite IH.
Qed.

Lemma drop_spaces_split r :
  exists sp,
    r = sp ++ PyStr.drop_spaces r /\ forallb PyStr.is_space sp = true.
Proof.
  induction r as [|c r (sp & Hr & Hsp)]; [now exists []|]. cbn.
  destruct (PyStr.is_space c) eqn:Hc.
  - exists (c :: sp). cbn. rewrite Hc, Hsp. split; [now f_equal | reflexivity].
  - now exists [].
Qed.

Lemma forallb_rev {A} (p : A -> bool) l : forallb p (rev l) = forallb p l.
Proof.
  induction l as [|x l IH]; [reflexivity|]. cbn.
  rewrite forallb_app, IH. cbn. rewrite andb_true_r. apply andb_comm.
Qed.

Lemma split_rstrip s : PyStr.split (PyStr.rstrip s) = PyStr.split s.
Proof.
  unfold PyStr.split, PyStr.rstrip, PyStr.of_rev.
  rewrite <- (of_list_of_string s) at 2.
  remember (String.list_ascii_of_string s) as l eqn:El. clear El s.
  destruct (drop_spaces_split (rev l)) as (sp & Hr & Hsp).
  remember (PyStr.drop_spaces (rev l)) as D eqn:ED. clear ED.
  assert (Hl : l = rev D ++ rev sp).
  { rewrite <- rev_app_distr, <- Hr. symmetry. apply rev_involutive. }
  rewrite Hl. symmetry. apply split_aux_trailing.
  now rewrite forallb_rev.
Qed.

Lemma split_lstrip s : PyStr.split (PyStr.lstrip s) = PyStr.split s.
Proof.
  unfold PyStr.split. induction s as [|c s IH]; [reflexivity|]. cbn.
  destruct (PyStr.is_space c) eqn:Hc; [exact IH | cbn; now rewrite Hc].
Qed.

(** [split] does not see the white space that [strip] removes. *)
Lemma split_strip s : PyStr.split (PyStr.strip s) = PyStr.split s.
Proof. unfold PyStr.strip. now rewrite split_rstrip, split_lstrip. Qed.

Lemma split_aux_nil acc s :
  PyStr.split_aux acc s = [] ->
  acc = [] /\ forallb PyStr.is_space (String.list_ascii_of_string s) = true.
Proof.
  revert acc. induction s as [|c s IH]; intros acc; cbn.
  - destruct acc; [auto | discriminate].
  - destruct (PyStr.is_space c) eqn:Hc.
    + destruct acc; [|discriminate]. intros H. now destruct (IH [] H).
    + intros H. destruct (IH _ H). discriminate.
Qed.

Lemma drop_spaces_head r :
  match PyStr.drop_spaces r with
  | [] => True
  | c :: _ => PyStr.is_space c = false
  end.
Proof.
  induction r as [|c r IH]; [exact I|]. cbn.
  now destruct (PyStr.is_space c) eqn:Hc.
Qed.

Lemma list_of_string_of_list l :
  String.list_ascii_of_string (String.string_of_list_ascii l) = l.
Proof. apply String.list_ascii_of_string_of_list_ascii. Qed.

(** A line that is not empty after [strip] has a first field. *)
Lemma split_strip_nonempty s :
  PyStr.strip s <> "" -> PyStr.split (PyStr.strip s) <> [].
Proof.
  unfold PyStr.strip at 1 2, PyStr.rstrip, PyStr.of_rev.
  set (r := PyStr.drop_spaces _). pose proof (drop_spaces_head _ : match r with [] => _ | _ => _ end) as Hh.
  destruct r as [|c r'] eqn:Hr; [intros H; now contradict H|].
  intros _ Hs. apply split_aux_nil in Hs as [_ Hs].
  rewrite list_of_string_of_list in Hs. cbn in Hs.
  rewrite forallb_app in Hs. cbn in Hs.
  rewrite Hh, andb_false_r in Hs. discriminate.
Qed.

(** The first field of a line that starts with a character that is not
    white space starts with that character. *)
Lemma split_aux_first s more c0 :
  exists tl rest,
    PyStr.split_aux (more ++ [c0]) s = String c0 tl :: rest.
Proof.
  revert more. induction s as [|c s IH]; intros more.
  - cbn. unfold PyStr.of_rev. rewrite rev_app_distr. cbn.
    destruct (more ++ [c0]) eqn:E; [now destruct more|]. eauto.
  - cbn. destruct (PyStr.is_space c).
    + unfold PyStr.of_rev. rewrite rev_app_distr. cbn.
      destruct (more ++ [c0]) eqn:E; [now destruct more|]. eauto.
    + apply (IH (c :: more)).
Qed.

Lemma split_first c s :
  PyStr.is_space c = false ->
  exists tl rest, PyStr.split (String c s) = String c tl :: rest.
Proof.
  intros Hc. unfold PyStr.split. cbn. rewrite Hc.
  apply (split_aux_first s [] c).
Qed.

(** ** The two loops over the lines *)

Lemma header_line_names_none line ip rest :
  PyStr.startswith line "Interface" || PyStr.startswith line "Internet" = true ->
  PyStr.split line = ip :: rest ->
  PyStr.re_match_dotted_quad ip = false.
Proof.
  intros Hh Hs.
  assert (exists l, line = String "I" l) as [l ->].
  { destruct line as [|a l]; [discriminate|]. exists l. f_equal.
    destruct a as [[] [] [] [] [] [] [] []]; cbn in Hh;
      first [discriminate | reflexivity]. }
  destruct (split_first "I" l eq_refl) as (tl & rest' & Hs').
  rewrite Hs' in Hs. injection Hs as <- _. reflexivity.
Qed.

(** The Windows loop computes what the other loop computes, and its
    [parts[0]] is never out of range. *)
Lemma parse_arp_windows_posix lines ips :
  parse_arp_windows lines ips = (parse_arp_posix lines ips, Ok tt).
Proof.
  revert ips. induction lines as [|line lines IH]; intros ips; [reflexivity|].
  cbn [parse_arp_windows parse_arp_posix].
  rewrite <- (split_strip line).
  destruct (PyStr.strip line) as [|c l] eqn:Hl; [apply IH|].
  rewrite orb_false_l.
  destruct (PyStr.startswith (String c l) "Interface"
            || PyStr.startswith (String c l) "Internet") eqn:Hh.
  - destruct (PyStr.split (String c l)) as [|ip rest] eqn:Hs; [apply IH|].
    rewrite (header_line_names_none _ _ _ Hh Hs). apply IH.
  - destruct (PyStr.split (String c l)) as [|ip rest] eqn:Hs.
    + exfalso. rewrite <- Hl in Hs. revert Hs. apply split_strip_nonempty.
      now rewrite Hl.
    + destruct (PyStr.re_match_dotted_quad ip); apply IH.
Qed.

Lemma parse_arp_any_platform os out :
  parse_arp os out = (parse_arp_posix (PyStr.splitlines out) [], Ok tt).
Proof.
  destruct os; cbn [parse_arp]; [apply parse_arp_windows_posix | reflexivity..].
Qed.

Lemma discover_devices_eq env s :
  discover_devices env s =
  match check_output env (arp_command (os_type env)) with
  | Ok out =>
      (s, [ECheckOutput (arp_command (os_type env))],
       Ok (parse_arp_posix (PyStr.splitlines out) []))
  | Raise e =>
      (s, [ECheckOutput (arp_command (os_type env)); ELog (MsgArpFailed e)],
       Ok [])
  end.
Proof.
  unfold discover_devices. run_monad.
  destruct (check_output env (arp_command (os_type env))) as [out|e];
    [|reflexivity].
  cbn. now rewrite parse_arp_any_platform.
Qed.


(** ** The set that discovery returns *)

Lemma set_add_elem x y s : x ∈ set_add y s <-> x = y \/ x ∈ s.
Proof.
  induction s as [|z s IH]; cbn.
  - rewrite list_elem_of_singleton. split; [auto|]. intros [H|H]; [exact H|].
    inversion H.
  - destruct (decide (z = y)) as [->|Hz].
    + split; [auto|]. intros [->|H]; [left | exact H].
    + rewrite !elem_of_cons, IH. tauto.
Qed.

Lemma set_add_NoDup y s : NoDup s -> NoDup (set_add y s).
Proof.
  induction s as [|z s IH]; cbn; intros H.
  - apply NoDup_singleton.
  - destruct (decide (z = y)) as [->|Hz]; [exact H|].
    apply NoDup_cons in H as [Hz' H]. apply NoDup_cons. split; [|auto].
    rewrite set_add_elem. intros [->|Hin]; [congruence | contradiction].
Qed.

Lemma parse_arp_posix_NoDup lines ips :
  NoDup ips -> NoDup (parse_arp_posix lines ips).
Proof.
  revert ips. induction lines as [|line lines IH]; intros ips H; cbn; [exact H|].
  destruct (PyStr.split line) as [|ip rest]; [auto|].
  destruct (PyStr.re_match_dotted_quad ip); auto using set_add_NoDup.
Qed.

Lemma parse_arp_posix_elem lines ips ip :
  ip ∈ parse_arp_posix lines ips
  <-> ip ∈ ips \/ exists line, line ∈ lines /\ names_device line ip.
Proof.
  revert ips. induction lines as [|line lines IH]; intros ips; cbn.
  - split; [auto|]. intros [H|(l & H & _)]; [exact H | inversion H].
  - assert (Hex : (exists l, l ∈ line :: lines /\ names_device l ip)
                  <-> names_device line ip
                      \/ exists l, l ∈ lines /\ names_device l ip).
    { split.
      - intros (l & Hl & Hn). apply elem_of_cons in Hl as [->|Hl]; eauto.
      - intros [Hn|(l & Hl & Hn)]; [exists line | exists l];
          (split; [|assumption]); [left | now right]. }
    rewrite Hex. unfold names_device at 1.
    destruct (PyStr.split line) as [|tok rest] eqn:Hs.
    + rewrite IH. split; [tauto|].
      intros [H|[(r & Hr & _)|H]]; [auto | discriminate | auto].
    + destruct (PyStr.re_match_dotted_quad tok) eqn:Hm.
      * rewrite IH, set_add_elem. split.
        -- intros [[->|H]|H]; [|auto..]. right. left. eauto.
        -- intros [H|[(r & [= <- <-] & _)|H]]; auto.
      * rewrite IH. split; [tauto|].
        intros [H|[(r & [= <- <-] & Hm')|H]]; [auto | congruence | auto].
Qed.

(** X13. The set that [discover_devices] returns from the output of the
    ARP command holds no address twice, and holds an address exactly if
    some line of the output has it as its first white-space separated
    field and the field starts with a dotted quad. *)
Theorem discovered_devices_are_first_fields (env : Env) (s : State)
    (out : string) (ips : list string)
    (Hout : check_output env (arp_command (os_type env)) = Ok out)
    (Hres : result (discover_devices env s) = Ok ips) :
  NoDup ips
  /\ forall ip,
       ip ∈ ips
       <-> exists line, line ∈ PyStr.splitlines out /\ names_device line ip.
Proof.
  rewrite discover_devices_eq, Hout in Hres. cbn in Hres. injection Hres as <-.
  split; [apply parse_arp_posix_NoDup, NoDup_nil_2|].
  intros ip. rewrite parse_arp_posix_elem. split; [|auto].
  intros [H|H]; [inversion H | exact H].
Qed.

Lemma discovered_devices_are_first_fields_witness :
  NoDup ["10.0.0.5"; "10.0.0.7"].
Proof.
  apply (discovered_devices_are_first_fields
           (calm_env Windows
              "Interface: 10.0.0.2 --- 0x3 
  10.0.0.5   aa-bb-cc-dd-ee-ff  dynamic
10.0.0.7 11-22-33-44-55-66 dynamic
  10.0.0.5   aa-bb-cc-dd-ee-ff  dynamic")
           initial_state
           "Interface: 10.0.0.2 --- 0x3 
  10.0.0.5   aa-bb-cc-dd-ee-ff  dynamic
10.0.0.7 11-22-33-44-55-66 dynamic
  10.0.0.5   aa-bb-cc-dd-ee-ff  dynamic"
           ["10.0.0.5"; "10.0.0.7"]).
  - reflexivity.
  - reflexivity.
Defined.

(** * The firewall block *)

Lemma firewall_commands_rules env ip :
  match platform_rules (os_type env) ip with
  | [inbound; outbound] =>
      (firewall_trace env ip, firewall_result env ip)
      = match run env inbound with
        | Ok _ => ([ERun inbound; ERun outbound], run env outbound)
        | Raise e => ([ERun inbound], Raise e)
        end
  | _ => (firewall_trace env ip, firewall_result env ip) = ([], Ok tt)
  end.
Proof.
  unfold firewall_trace, firewall_result, platform_rules, firewall_commands,
    run_cmd.
  destruct (os_type env); run_monad; try reflexivity;
    repeat match goal with
           | |- context [run env ?c] => destruct (run env c) as [[]|?]; cbn
           end; reflexivity.
Qed.


Lemma firewall_result_ok env ip :
  firewall_result env ip = Ok tt
  <-> Forall (fun cmd => run env cmd = Ok tt) (platform_rules (os_type env) ip).
Proof.
  pose proof (firewall_commands_rules env ip) as H.
  destruct (os_type env); cbn [platform_rules] in *;
    repeat match type of H with
           | context [run env ?c] =>
               let E := fresh "E" in destruct (run env c) as [[]|?] eqn:E
           end;
    injection H as _ ->;
    (split; [intros Hr | intros Hf]);
    try discriminate; try reflexivity;
    repeat match goal with
           | H : Forall _ (_ :: _) |- _ => apply Forall_cons in H as [? H]
           end;
    try congruence;
    repeat (apply Forall_cons; split; [assumption|]); apply Forall_nil_2.
Qed.

Lemma firewall_result_raise env ip e :
  firewall_result env ip = Raise e ->
  exists cmd, cmd ∈ platform_rules (os_type env) ip /\ run env cmd = Raise e.
Proof.
  pose proof (firewall_commands_rules env ip) as H.
  destruct (os_type env); cbn [platform_rules] in *;
    repeat match type of H with
           | context [run env ?c] =>
               let E := fresh "E" in destruct (run env c) as [[]|?] eqn:E
           end;
    injection H as _ ->; intros [= ->];
    (eexists; split; [|eassumption]); repeat first [left | right].
Qed.

Lemma firewall_trace_runs env ip ev :
  ev ∈ firewall_trace env ip ->
  exists cmd, ev = ERun cmd /\ cmd ∈ platform_rules (os_type env) ip.
Proof.
  pose proof (firewall_commands_rules env ip) as H.
  destruct (os_type env); cbn [platform_rules] in *;
    repeat match type of H with
           | context [run env ?c] =>
               let E := fresh "E" in destruct (run env c) as [[]|?] eqn:E
           end;
    injection H as -> _; intros Hin;
    repeat match goal with
           | H : _ ∈ _ :: _ |- _ => apply elem_of_cons in H as [->|H]
           | H : _ ∈ [] |- _ => inversion H
           end;
    (eexists; split; [reflexivity|]); repeat first [left | right].
Qed.

Lemma firewall_trace_order env ip inbound outbound :
  platform_rules (os_type env) ip = [inbound; outbound] ->
  ERun outbound ∈ firewall_trace env ip ->
  ERun inbound ∈ firewall_trace env ip /\ run env inbound = Ok tt.
Proof.
  intros Hr. pose proof (firewall_commands_rules env ip) as H.
  rewrite Hr in H.
  assert (Hne : inbound <> outbound).
  { destruct (os_type env); cbn in Hr; [| |discriminate];
      injection Hr as <- <-; unfold netsh_rule; discriminate. }
  destruct (run env inbound) as [[]|e]; injection H as -> _; intros Hin.
  - split; [left | reflexivity].
  - apply list_elem_of_singleton in Hin. congruence.
Qed.

(** * The monitor when the log can fail *)

(** ** In a quiet world it is the monitor of the claims *)

Lemma bind_ext {A B} (m m' : M A) (f f' : A -> M B) :
  (forall s, m s = m' s) -> (forall a s, f a s = f' a s) ->
  forall s, (m ≫= f) s = (m' ≫= f') s.
Proof.
  intros Hm Hf s. rewrite !bind_run, Hm.
  destruct (m' s) as [[s1 t1] [a|e]]; [|reflexivity]. now rewrite Hf.
Qed.

Lemma for_each_ext {A} (l : list A) (body body' : A -> M unit) :
  (forall x s, body x s = body' x s) ->
  forall s, for_each l body s = for_each l body' s.
Proof.
  intros Hb. induction l as [|x l IH]; intros s; [reflexivity|].
  rewrite !for_each_cons_run, Hb.
  destruct (body' x s) as [[s1 t1] [[]|e]]; [|reflexivity]. now rewrite IH.
Qed.

Section Quiet.
Context (cfg : Config) (w : MonitorIO.World) (Hq : MonitorIO.quiet w).

Lemma log_quiet m s : MonitorIO.log w m s = log m s.
Proof. unfold MonitorIO.log. now rewrite (proj1 Hq m). Qed.

Lemma play_sound_quiet s :
  MonitorIO.play_sound w s = play_sound (MonitorIO.env w) s.
Proof.
  unfold MonitorIO.play_sound, play_sound.
  destruct (sound_file_exists (MonitorIO.env w)); [|reflexivity].
  unfold try_catch, call.
  destruct (playsound (MonitorIO.env w)) as [[]|e]; [reflexivity|].
  now rewrite (proj2 Hq e).
Qed.

Lemma block_ip_quiet ip s :
  MonitorIO.block_ip w ip s = block_ip (MonitorIO.env w) ip s.
Proof.
  unfold MonitorIO.block_ip, block_ip. apply bind_ext; [reflexivity|].
  intros _ s'. unfold try_catch.
  rewrite (bind_ext _ (firewall_commands (MonitorIO.env w) ip)
             _ (fun _ => log (MsgBlocked ip)));
    [|reflexivity | intros; apply log_quiet].
  destruct ((firewall_commands (MonitorIO.env w) ip
             ≫= (fun _ => log (MsgBlocked ip))) s') as [[s1 t1] [[]|e]];
    [reflexivity|].
  now rewrite log_quiet.
Qed.

Lemma discover_devices_quiet s :
  MonitorIO.discover_devices w s = discover_devices (MonitorIO.env w) s.
Proof.
  unfold MonitorIO.discover_devices, discover_devices.
  apply bind_ext; [reflexivity|].
  intros [ips [[]|e]] s'; [reflexivity|].
  apply bind_ext; [apply log_quiet | reflexivity].
Qed.

Lemma seed_device_quiet now ip s :
  MonitorIO.seed_device w now ip s = seed_device now ip s.
Proof.
  unfold MonitorIO.seed_device, seed_device.
  destruct (decide (ip = BROADCAST)); [reflexivity|].
  apply bind_ext; [reflexivity|]. intros d s'.
  destruct (dict_mem ip d); [reflexivity|].
  apply bind_ext; [reflexivity|]. intros; apply log_quiet.
Qed.

Lemma enforce_quiet ip s :
  MonitorIO.enforce cfg w ip s = enforce cfg (MonitorIO.env w) ip s.
Proof.
  unfold MonitorIO.enforce, enforce.
  apply bind_ext; [apply log_quiet|]. intros _ s1.
  apply bind_ext; [reflexivity|]. intros _ s2.
  apply bind_ext; [apply play_sound_quiet|]. intros _ s3.
  apply bind_ext; [|reflexivity]. intros s4.
  destruct (AGGRESSIVE_MODE cfg); [apply block_ip_quiet | reflexivity].
Qed.

Lemma check_device_quiet now item s :
  MonitorIO.check_device cfg w now item s
  = check_device cfg (MonitorIO.env w) now item s.
Proof.
  destruct item as [ip last]. unfold MonitorIO.check_device, check_device.
  destruct (decide (ip = BROADCAST)); [reflexivity|].
  apply bind_ext; [reflexivity|]. intros b s'.
  destruct (idle_crossed cfg now last && negb (bool_decide (ip ∈ b)));
    [apply enforce_quiet | reflexivity].
Qed.

(** With a log and a console that work, the cycle is the cycle of
    [Monitor]. *)
Lemma idle_checker_cycle_quiet_world now s :
  MonitorIO.idle_checker_cycle cfg w now s
  = idle_checker_cycle cfg (MonitorIO.env w) now s.
Proof.
  unfold MonitorIO.idle_checker_cycle, idle_checker_cycle.
  apply bind_ext; [apply discover_devices_quiet|]. intros ips s1.
  unfold MonitorIO.seed_and_check, seed_and_check.
  apply bind_ext; [apply for_each_ext; intros; apply seed_device_quiet|].
  intros _ s2. apply bind_ext; [reflexivity|]. intros items s3.
  apply for_each_ext. intros; apply check_device_quiet.
Qed.

End Quiet.

(** ** What can leave a cycle *)

Section RaisesOnly.
Context (P : string -> Prop).

Lemma raises_only_ret {A} (a : A) : raises_only P (ret a).
Proof. intros s e. discriminate. Qed.

Lemma raises_only_emit ev : raises_only P (emit ev).
Proof. intros s e. discriminate. Qed.

Lemma raises_only_raise {A} e : P e -> raises_only P (@MonitorIO.raise A e).
Proof. intros H s e' [= <-]. exact H. Qed.

Lemma raises_only_call {A} ev (r : Result A) :
  (forall e, r = Raise e -> P e) -> raises_only P (call ev r).
Proof. intros H s e. cbn. apply H. Qed.

Lemma raises_only_bind {A B} (m : M A) (f : A -> M B) :
  raises_only P m -> (forall a, raises_only P (f a)) ->
  raises_only P (m ≫= f).
Proof.
  intros Hm Hf s e. rewrite bind_run.
  specialize (Hm s). destruct (m s) as [[s1 t1] [a|e']].
  - specialize (Hf a s1). destruct (f a s1) as [[s2 t2] r]. exact (Hf e).
  - intros [= <-]. now apply Hm.
Qed.

(** What the body of a [try] raises is caught: only the handler counts. *)
Lemma raises_only_try_catch {A} (m : M A) (h : string -> M A) :
  (forall e, raises_only P (h e)) -> raises_only P (try_catch m h).
Proof.
  intros Hh s e. unfold try_catch.
  destruct (m s) as [[s1 t1] [a|e']]; [discriminate|].
  specialize (Hh e' s1). destruct (h e' s1) as [[s2 t2] r]. exact (Hh e).
Qed.

Lemma raises_only_for_each {A} (l : list A) (body : A -> M unit) :
  (forall x, raises_only P (body x)) -> raises_only P (for_each l body).
Proof.
  intros Hb. induction l as [|x l IH]; cbn [for_each].
  - apply raises_only_ret.
  - apply raises_only_bind; [apply Hb | intros _; exact IH].
Qed.

End RaisesOnly.

Section Unhandled.
Context (cfg : Config) (w : MonitorIO.World).

Lemma log_unhandled m :
  raises_only (MonitorIO.unhandled cfg w) (MonitorIO.log w m).
Proof.
  unfold MonitorIO.log. destruct (MonitorIO.log_result w m) as [[]|e] eqn:E.
  - apply raises_only_emit.
  - apply raises_only_raise. left. eauto.
Qed.

Lemma play_sound_unhandled :
  raises_only (MonitorIO.unhandled cfg w) (MonitorIO.play_sound w).
Proof.
  unfold MonitorIO.play_sound.
  destruct (sound_file_exists (MonitorIO.env w)); [|apply raises_only_ret].
  intros s e. unfold try_catch, call.
  destruct (playsound (MonitorIO.env w)) as [[]|e0] eqn:Es; [discriminate|].
  destruct (MonitorIO.print_result w e0) as [[]|e1] eqn:Ep; [discriminate|].
  intros [= <-]. right. right. eauto.
Qed.

Lemma block_ip_unhandled ip :
  raises_only (MonitorIO.unhandled cfg w) (MonitorIO.block_ip w ip).
Proof.
  unfold MonitorIO.block_ip.
  apply raises_only_bind; [apply raises_only_emit|]. intros _.
  apply raises_only_try_catch. intros e. apply log_unhandled.
Qed.

Lemma discover_devices_unhandled :
  raises_only (MonitorIO.unhandled cfg w) (MonitorIO.discover_devices w).
Proof.
  unfold MonitorIO.discover_devices. apply raises_only_bind.
  - apply raises_only_try_catch. intros e. apply raises_only_ret.
  - intros [ips [[]|e]]; [apply raises_only_ret|].
    apply raises_only_bind; [apply log_unhandled|].
    intros _. apply raises_only_ret.
Qed.

Lemma seed_device_unhandled now ip :
  raises_only (MonitorIO.unhandled cfg w) (MonitorIO.seed_device w now ip).
Proof.
  unfold MonitorIO.seed_device.
  destruct (decide (ip = BROADCAST)); [apply raises_only_ret|].
  apply raises_only_bind; [intros s e; discriminate|]. intros d.
  destruct (dict_mem ip d); [apply raises_only_ret|].
  apply raises_only_bind; [intros s e; discriminate|].
  intros _. apply log_unhandled.
Qed.

Lemma enforce_unhandled ip :
  ip <> BROADCAST ->
  raises_only (MonitorIO.unhandled cfg w) (MonitorIO.enforce cfg w ip).
Proof.
  intros Hb. unfold MonitorIO.enforce, notify.
  apply raises_only_bind; [apply log_unhandled|]. intros _.
  apply raises_only_bind.
  { apply raises_only_call. intros e He. right. left. eauto. }
  intros _. apply raises_only_bind; [apply play_sound_unhandled|]. intros _.
  apply raises_only_bind; [|intros _ s e; discriminate].
  destruct (AGGRESSIVE_MODE cfg);
    [apply block_ip_unhandled | apply raises_only_ret].
Qed.

Lemma check_device_unhandled now item :
  raises_only (MonitorIO.unhandled cfg w) (MonitorIO.check_device cfg w now item).
Proof.
  destruct item as [ip last]. unfold MonitorIO.check_device.
  destruct (decide (ip = BROADCAST)); [apply raises_only_ret|].
  apply raises_only_bind; [intros s e; discriminate|]. intros b.
  destruct (idle_crossed cfg now last && negb (bool_decide (ip ∈ b)));
    [now apply enforce_unhandled | apply raises_only_ret].
Qed.

Lemma idle_checker_cycle_unhandled now :
  raises_only (MonitorIO.unhandled cfg w) (MonitorIO.idle_checker_cycle cfg w now).
Proof.
  unfold MonitorIO.idle_checker_cycle, MonitorIO.seed_and_check.
  apply raises_only_bind; [apply discover_devices_unhandled|]. intros ips.
  apply raises_only_bind.
  { apply raises_only_for_each. intros ip. apply seed_device_unhandled. }
  intros _. apply raises_only_bind; [intros s e; discriminate|]. intros items.
  apply raises_only_for_each. intros item. apply check_device_unhandled.
Qed.

End Unhandled.

(** X9. With a log and a console that can fail as well: a cycle that
    raises [e] does so because a [log] call raised [e], or the
    notification of an address other than the broadcast address raised
    [e], or [playsound] raised and the [print] of its handler raised [e].
    A failure of the ARP query, of [playsound] or of a firewall command
    is caught, and by itself never ends the cycle. *)
Theorem only_unhandled_failures_escape (cfg : Config) (w : MonitorIO.World)
    (now : Z) (s : State) (e : string)
    (Hraise : result (MonitorIO.idle_checker_cycle cfg w now s) = Raise e) :
  (exists m, MonitorIO.log_result w m = Raise e)
  \/ (exists ip,
        ip <> BROADCAST
        /\ notification_notify (MonitorIO.env w) "Firewall gAmA" ip
             (IDLE_TIMEOUT cfg) = Raise e)
  \/ (exists e0,
        playsound (MonitorIO.env w) = Raise e0
        /\ MonitorIO.print_result w e0 = Raise e).
Proof. exact (idle_checker_cycle_unhandled cfg w now s e Hraise). Qed.

Lemma only_unhandled_failures_escape_witness :
  (exists m,
     MonitorIO.log_result notify_down_world m
     = Raise "No usable implementation found!")
  \/ (exists ip,
        ip <> BROADCAST
        /\ notification_notify (MonitorIO.env notify_down_world)
             "Firewall gAmA" ip (IDLE_TIMEOUT source_config)
           = Raise "No usable implementation found!")
  \/ (exists e0,
        playsound (MonitorIO.env notify_down_world) = Raise e0
        /\ MonitorIO.print_result notify_down_world e0
           = Raise "No usable implementation found!").
Proof.
  apply (only_unhandled_failures_escape source_config notify_down_world
           10000000 idle_device_state "No usable implementation found!").
  reflexivity.
Defined.

(** ** The firewall block when the log can fail *)

Lemma block_ip_io_run w ip s :
  MonitorIO.block_ip w ip s =
  let failed e :=
    match MonitorIO.log_result w (MsgBlockFailed ip e) with
    | Ok _ =>
        (s, EBlockIp ip :: firewall_trace (MonitorIO.env w) ip
              ++ [ELog (MsgBlockFailed ip e)], Ok tt)
    | Raise e' =>
        (s, EBlockIp ip :: firewall_trace (MonitorIO.env w) ip, Raise e')
    end in
  match firewall_result (MonitorIO.env w) ip with
  | Ok _ =>
      match MonitorIO.log_result w (MsgBlocked ip) with
      | Ok _ =>
          (s, EBlockIp ip :: firewall_trace (MonitorIO.env w) ip
                ++ [ELog (MsgBlocked ip)], Ok tt)
      | Raise e => failed e
      end
  | Raise e => failed e
  end.
Proof.
  unfold MonitorIO.block_ip. rewrite bind_run. cbn [emit].
  unfold try_catch. rewrite bind_run, firewall_commands_run.
  unfold MonitorIO.log, MonitorIO.raise.
  destruct (firewall_result (MonitorIO.env w) ip) as [[]|e0].
  - destruct (MonitorIO.log_result w (MsgBlocked ip)) as [[]|e1]; cbn.
    + reflexivity.
    + destruct (MonitorIO.log_result w (MsgBlockFailed ip e1)) as [[]|e2];
        cbn; now rewrite ?app_nil_r.
  - destruct (MonitorIO.log_result w (MsgBlockFailed ip e0)) as [[]|e2];
      cbn; now rewrite ?app_nil_r.
Qed.

Lemma log_line_of_block_trace env ip m m' :
  ELog m ∈ EBlockIp ip :: firewall_trace env ip ++ [ELog m'] <-> m = m'.
Proof.
  split.
  - intros H. apply elem_of_cons in H as [H|H]; [discriminate|].
    apply elem_of_app in H as [H|H].
    + apply firewall_trace_runs in H as (cmd & H & _). discriminate.
    + apply list_elem_of_singleton in H. now injection H.
  - intros ->. right. apply elem_of_app. right. left.
Qed.

Lemma no_log_line_of_firewall_trace env ip m :
  ELog m ∉ EBlockIp ip :: firewall_trace env ip.
Proof.
  intros H. apply elem_of_cons in H as [H|H]; [discriminate|].
  apply firewall_trace_runs in H as (cmd & H & _). discriminate.
Qed.

Lemma run_of_block_trace env ip cmd l :
  (forall c, ERun c ∉ l) ->
  ERun cmd ∈ EBlockIp ip :: firewall_trace env ip ++ l ->
  ERun cmd ∈ firewall_trace env ip.
Proof.
  intros Hl H. apply elem_of_cons in H as [H|H]; [discriminate|].
  apply elem_of_app in H as [H|H]; [exact H|]. now apply Hl in H.
Qed.

(** What [block_ip] leaves on the trace besides its rules: nothing, or
    one line of the log. *)
Lemma block_ip_io_trace w ip s :
  exists l,
    trace (MonitorIO.block_ip w ip s)
    = EBlockIp ip :: firewall_trace (MonitorIO.env w) ip ++ l
    /\ forall c, ERun c ∉ l.
Proof.
  rewrite block_ip_io_run. cbn zeta.
  destruct (firewall_result (MonitorIO.env w) ip) as [[]|e0];
    [destruct (MonitorIO.log_result w (MsgBlocked ip)) as [[]|e1]|];
    repeat match goal with
           | |- context [MonitorIO.log_result w (MsgBlockFailed ip ?e)] =>
               destruct (MonitorIO.log_result w (MsgBlockFailed ip e))
                 as [[]|?]
           end;
    cbn [trace fst snd];
    first [ eexists; split; [reflexivity|]
          | exists []; split; [now rewrite app_nil_r|] ];
    intros c Hc;
    repeat match goal with
           | H : _ ∈ _ :: _ |- _ => apply elem_of_cons in H as [H|H]
           | H : _ ∈ [] |- _ => inversion H
           end; discriminate.
Qed.

(** X15. With a log that can fail as well: [block_ip] changes neither
    global and runs rules of the platform only, the inbound rule first
    and the outbound rule only after the inbound rule went in.  The line
    "Blocked IP" is written exactly if every rule of the platform went in
    (so also on a platform that has none) and the [log] call for it
    succeeded.  A line "Failed to block" is written only by a [log] call
    that succeeded, and carries the error of a rule that failed or, when
    all rules went in, the error of the [log] call for "Blocked IP".
    [block_ip] raises exactly what the [log] call of its handler raises,
    and so returns when the log works. *)
Theorem block_ip_installs_rules_in_order (w : MonitorIO.World) (ip : string)
    (s : State) :
  final_state (MonitorIO.block_ip w ip s) = s
  /\ (forall cmd,
        ERun cmd ∈ trace (MonitorIO.block_ip w ip s) ->
        cmd ∈ platform_rules (os_type (MonitorIO.env w)) ip)
  /\ (forall inbound outbound,
        platform_rules (os_type (MonitorIO.env w)) ip = [inbound; outbound] ->
        ERun outbound ∈ trace (MonitorIO.block_ip w ip s) ->
        ERun inbound ∈ trace (MonitorIO.block_ip w ip s)
        /\ run (MonitorIO.env w) inbound = Ok tt)
  /\ (ELog (MsgBlocked ip) ∈ trace (MonitorIO.block_ip w ip s)
      <-> Forall (fun cmd => run (MonitorIO.env w) cmd = Ok tt)
            (platform_rules (os_type (MonitorIO.env w)) ip)
          /\ MonitorIO.log_result w (MsgBlocked ip) = Ok tt)
  /\ (forall e,
        ELog (MsgBlockFailed ip e) ∈ trace (MonitorIO.block_ip w ip s) ->
        MonitorIO.log_result w (MsgBlockFailed ip e) = Ok tt
        /\ ((exists cmd,
               cmd ∈ platform_rules (os_type (MonitorIO.env w)) ip
               /\ run (MonitorIO.env w) cmd = Raise e)
            \/ (Forall (fun cmd => run (MonitorIO.env w) cmd = Ok tt)
                  (platform_rules (os_type (MonitorIO.env w)) ip)
                /\ MonitorIO.log_result w (MsgBlocked ip) = Raise e)))
  /\ (forall e,
        result (MonitorIO.block_ip w ip s) = Raise e ->
        exists e0, MonitorIO.log_result w (MsgBlockFailed ip e0) = Raise e)
  /\ ((forall m, MonitorIO.log_result w m = Ok tt) ->
      result (MonitorIO.block_ip w ip s) = Ok tt).
Proof.
  destruct (block_ip_io_trace w ip s) as (l & Ht & Hl).
  split; [|split; [|split; [|split; [|split; [|split]]]]].
  - rewrite block_ip_io_run. cbn zeta.
    destruct (firewall_result _ ip) as [[]|?];
      repeat match goal with
             | |- context [MonitorIO.log_result w ?m] =>
                 destruct (MonitorIO.log_result w m) as [[]|?]
             end; reflexivity.
  - intros cmd H. rewrite Ht in H.
    apply run_of_block_trace in H; [|exact Hl].
    now apply firewall_trace_runs in H as (c & [= ->] & Hc).
  - intros inbound outbound Hr H. rewrite Ht in *.
    apply run_of_block_trace in H; [|exact Hl].
    destruct (firewall_trace_order _ _ _ _ Hr H) as [Hin Hok].
    split; [|exact Hok]. right. apply elem_of_app. now left.
  - clear l Ht Hl. rewrite <- firewall_result_ok, block_ip_io_run. cbn zeta.
    destruct (firewall_result (MonitorIO.env w) ip) as [[]|e0];
      [destruct (MonitorIO.log_result w (MsgBlocked ip)) as [[]|e1]|];
      repeat match goal with
             | |- context [MonitorIO.log_result w (MsgBlockFailed ip ?e)] =>
                 destruct (MonitorIO.log_result w (MsgBlockFailed ip e))
                   as [[]|?]
             end;
      cbn [trace fst snd];
      rewrite ?log_line_of_block_trace;
      (split; [intros H | intros [H1 H2]]);
      try discriminate; try (split; reflexivity); try reflexivity;
      try (exfalso; revert H; apply no_log_line_of_firewall_trace).
  - clear l Ht Hl. intros e. rewrite block_ip_io_run. cbn zeta.
    destruct (firewall_result (MonitorIO.env w) ip) as [[]|e0] eqn:Ef.
    + destruct (MonitorIO.log_result w (MsgBlocked ip)) as [[]|e1] eqn:Eb.
      * cbn [trace fst snd]. rewrite log_line_of_block_trace. discriminate.
      * destruct (MonitorIO.log_result w (MsgBlockFailed ip e1)) as [[]|e2]
          eqn:El; cbn [trace fst snd].
        -- rewrite log_line_of_block_trace. intros [= ->].
           split; [exact El|]. right.
           split; [now apply firewall_result_ok | reflexivity].
        -- intros H. exfalso. revert H. apply no_log_line_of_firewall_trace.
    + destruct (MonitorIO.log_result w (MsgBlockFailed ip e0)) as [[]|e2]
        eqn:El; cbn [trace fst snd].
      * rewrite log_line_of_block_trace. intros [= ->].
        split; [exact El|]. left. now apply firewall_result_raise.
      * intros H. exfalso. revert H. apply no_log_line_of_firewall_trace.
  - clear l Ht Hl. intros e. rewrite block_ip_io_run. cbn zeta.
    destruct (firewall_result (MonitorIO.env w) ip) as [[]|e0];
      [destruct (MonitorIO.log_result w (MsgBlocked ip)) as [[]|e1]|];
      repeat match goal with
             | |- context [MonitorIO.log_result w (MsgBlockFailed ip ?e)] =>
                 let E := fresh "El" in
                 destruct (MonitorIO.log_result w (MsgBlockFailed ip e))
                   as [[]|?] eqn:E
             end;
      cbn [result snd]; intros H; try discriminate;
      injection H as <-; eauto.
  - clear l Ht Hl. intros Hlog. rewrite block_ip_io_run. cbn zeta.
    rewrite (Hlog (MsgBlocked ip)).
    destruct (firewall_result (MonitorIO.env w) ip) as [[]|e0];
      [reflexivity|]. now rewrite (Hlog (MsgBlockFailed ip e0)).
Qed.
